(** * Subtitle chunking of auto-youtube-shorts

    A shallow embedding of the subtitle code of the video generator:
    [secondsToSRT], [chunkSentence], [chunkText], the content written
    by [generateSubtitleFile], and the string primitives of the host
    language they call ([indexOf], [slice], [split], [trim], [join]).

    Modelling conventions.
    - A string is a list of code units; only the code units 0..255 are
      represented, as [ascii].
    - A number that holds a time is an exact rational ([Q]); the code
      copies times around and compares them.  The source computes in
      double precision in two places: the subtraction before the
      comparison with 0.5 in [chunkSentence], and the product by 1000
      in [secondsToSRT].  The model computes both exactly, so it can
      differ from the source when the exact result is within rounding
      distance of the threshold (a duration next to 0.5, a fraction of
      a millisecond next to one half); the statements that depend on
      the side of a threshold keep away from it by their hypotheses
      (whole milliseconds, a duration of a second).
    - A number that holds a string index is an integer ([Z]); [indexOf]
      answers [-1] when there is no occurrence, as in the source.
    - A thrown [TypeError] (reading a property of [undefined]) is the
      [TypeError] constructor of [result]. *)

From Stdlib Require Import List String Ascii ZArith QArith Qround Lia Bool.
From Stdlib Require Import Sorting.Sorted DecimalString DecimalNat.
Import ListNotations.

Open Scope Z_scope.

(** ** Strings of the host language *)

Definition str := list ascii.

(** String literals. *)
Definition js (s : string) : str := list_ascii_of_string s.

Definition len (s : str) : Z := Z.of_nat (List.length s).

Definition str_eqb (a b : str) : bool :=
  if list_eq_dec ascii_dec a b then true else false.

(** [is_prefix w s]: the code units of [w] are the first ones of [s]. *)
Fixpoint is_prefix (w s : str) : bool :=
  match w, s with
  | [], _ => true
  | _ :: _, [] => false
  | a :: w', b :: s' => Ascii.eqb a b && is_prefix w' s'
  end.

(** Left-to-right search: the first position [k + d] such that [w] is a
    prefix of [s] with its first [d] code units removed. *)
Fixpoint find_from (w s : str) (k : nat) : option nat :=
  if is_prefix w s then Some k
  else match s with
       | [] => None
       | _ :: s' => find_from w s' (S k)
       end.

(** The position where the search of [indexOf] starts: the argument
    clamped to [0 .. length]. *)
Definition clamp (s : str) (position : Z) : Z :=
  Z.min (Z.max position 0) (len s).

(** [String.prototype.indexOf(word, position)]: the answer is the
    smallest index at or after the clamped position where [word] occurs,
    or [-1]. *)
Definition indexOf (s w : str) (position : Z) : Z :=
  let pos := Z.to_nat (clamp s position) in
  match find_from w (skipn pos s) pos with
  | Some k => Z.of_nat k
  | None => -1
  end.

(** A relative index of [slice]: negative counts from the end. *)
Definition rel_index (size i : Z) : Z :=
  if i <? 0 then Z.max (size + i) 0 else Z.min i size.

(** [String.prototype.slice(a, b)]. *)
Definition slice (s : str) (a b : Z) : str :=
  let from := rel_index (len s) a in
  let to := rel_index (len s) b in
  firstn (Z.to_nat (to - from)) (skipn (Z.to_nat from) s).

(** [String.prototype.slice(a)]: up to the end of the string. *)
Definition slice_from (s : str) (a : Z) : str := slice s a (len s).

(** White space of the host language ([\s] and [trim]), restricted to
    the code units 0..255: TAB, LF, VT, FF, CR, SPACE, NBSP. *)
Definition is_space (c : ascii) : bool :=
  let n := N_of_ascii c in
  ((9 <=? n) && (n <=? 13) || (n =? 32) || (n =? 160))%N.

(** The character class [[.!?]]. *)
Definition is_delim (c : ascii) : bool :=
  let n := N_of_ascii c in
  ((n =? 46) || (n =? 33) || (n =? 63))%N.

Fixpoint drop_space (s : str) : str :=
  match s with
  | c :: s' => if is_space c then drop_space s' else s
  | [] => []
  end.

(** [String.prototype.trim()]. *)
Definition trim (s : str) : str :=
  rev (drop_space (rev (drop_space s))).

(** The regular expression [/\s*[.!?]\s*/] tried at the head of [s]:
    the greedy white space run, one delimiter, the greedy white space
    run; the answer is what follows the match. *)
Definition match_delimiter (s : str) : option str :=
  match drop_space s with
  | c :: s' => if is_delim c then Some (drop_space s') else None
  | [] => None
  end.

(** The loop of [String.prototype.split] with that regular expression:
    [piece] holds (reversed) the code units since the end of the last
    match, [s] is the text from the position under test.  A match is
    never empty, so it always closes a piece.  [fuel] bounds the number
    of iterations; [S (length s)] is enough. *)
Fixpoint split_loop (fuel : nat) (piece s : str) : list str :=
  match fuel with
  | O => []
  | S fuel' =>
      match s with
      | [] => [rev piece]
      | c :: s' =>
          match match_delimiter s with
          | Some rest => rev piece :: split_loop fuel' [] rest
          | None => split_loop fuel' (c :: piece) s'
          end
      end
  end.

(** [text.split(/\s*[.!?]\s*/)]. *)
Definition split (text : str) : list str :=
  split_loop (S (List.length text)) [] text.

(** ** Data model *)

(** One entry of the word-level transcript: [{ word, start, end }]. *)
Record Word : Type := mkWord {
  word : str;
  w_start : Q;
  w_end : Q
}.

(** One subtitle chunk: [{ text, start, end }]. *)
Record Chunk : Type := mkChunk {
  text : str;
  start : Q;
  end_ : Q
}.

(** The outcome of a call that may throw. *)
Inductive result (A : Type) : Type :=
| Ok (a : A)
| TypeError.

Arguments Ok {A} a.
Arguments TypeError {A}.

(** ** chunkSentence *)

(** The local variables of [chunkSentence] that the loop updates. *)
Record LoopState : Type := mkLoopState {
  chunks : list Chunk;
  chunkStartIndex : Z;
  chunkEndIndex : Z;
  chunkStartTime : Q;
  chunkEndTime : Q
}.

(** The state before the loop, [first] being [words[0]]. *)
Definition init_state (first : Word) : LoopState :=
  {| chunks := [];
     chunkStartIndex := 0;
     chunkEndIndex := 0;
     chunkStartTime := w_start first;
     chunkEndTime := w_start first |}.

(** The branch "time for new chunk". *)
Definition new_chunk (sentence : str) (st : LoopState) (index : Z) (w : Word)
  : LoopState :=
  {| chunks := chunks st ++
       [ {| text := slice sentence (chunkStartIndex st) (chunkEndIndex st);
            start := chunkStartTime st;
            end_ := chunkEndTime st |} ];
     chunkStartIndex := index;
     chunkEndIndex := index;
     chunkStartTime := w_start w;
     chunkEndTime := w_end w |}.

(** The other branch: the word extends the current chunk. *)
Definition extend_chunk (st : LoopState) (index : Z) (w : Word) : LoopState :=
  {| chunks := chunks st;
     chunkStartIndex := chunkStartIndex st;
     chunkEndIndex := index + len (word w);
     chunkStartTime := chunkStartTime st;
     chunkEndTime := w_end w |}.

(** The body of the loop once [index >= 0]. *)
Definition step (sentence : str) (st : LoopState) (index : Z) (w : Word)
  : LoopState :=
  if index + len (word w) - chunkStartIndex st >? 30
  then new_chunk sentence st index w
  else extend_chunk st index w.

(** The [for] loop over [ws = words.slice(i)]: the answer is the state
    and the value of [i] when the loop is left, by [break] or because
    the words are exhausted. *)
Fixpoint loop (sentence : str) (st : LoopState) (i : nat) (ws : list Word)
  : LoopState * nat :=
  match ws with
  | [] => (st, i)
  | w :: rest =>
      let index := indexOf sentence (word w) (chunkEndIndex st) in
      if index <? 0 then (st, i)
      else loop sentence (step sentence st index w) (S i) rest
  end.

(** [chunkEndTime - chunkStartTime < 0.5], the subtraction being exact
    (the source subtracts in double precision: the two agree unless the
    exact difference is within rounding distance of 0.5). *)
Definition short_span (st : LoopState) : bool :=
  match (chunkEndTime st - chunkStartTime st ?= 0.5)%Q with
  | Lt => true
  | _ => false
  end.

(** [chunks[chunks.length - 1].text += " " + tail]: the last element is
    [undefined] when the array is empty, and reading its [text] throws. *)
Definition append_to_last (cs : list Chunk) (tail : str)
  : result (list Chunk) :=
  match rev cs with
  | [] => TypeError
  | last :: before =>
      Ok (rev before ++
          [ {| text := text last ++ js " " ++ tail;
               start := start last;
               end_ := end_ last |} ])
  end.

(** What follows the loop. *)
Definition finish (sentence : str) (st : LoopState) : result (list Chunk) :=
  if short_span st
  then append_to_last (chunks st) (slice_from sentence (chunkStartIndex st))
  else Ok (chunks st ++
           [ {| text := slice_from sentence (chunkStartIndex st);
                start := chunkStartTime st;
                end_ := chunkEndTime st |} ]).

(** [chunkSentence(sentence, words)]: the chunks and [remainingWords].
    [words[0].start] throws when [words] is empty. *)
Definition chunkSentence (sentence : str) (words : list Word)
  : result (list Chunk * list Word) :=
  match words with
  | [] => TypeError
  | first :: _ =>
      let '(st, i) := loop sentence (init_state first) 0 words in
      match finish sentence st with
      | TypeError => TypeError
      | Ok cs => Ok (cs, skipn i words)
      end
  end.

(** ** chunkText *)

(** The sentences: the pieces of the split that are not blank. *)
Definition sentences (txt : str) : list str :=
  filter (fun sentence => negb (str_eqb (trim sentence) [])) (split txt).

(** The [reduce] over the sentences; the accumulator is
    [{ chunks, remainingWords }]. *)
Fixpoint reduce_sentences (ss : list str) (acc : list Chunk * list Word)
  : result (list Chunk * list Word) :=
  match ss with
  | [] => Ok acc
  | sentence :: ss' =>
      match chunkSentence sentence (snd acc) with
      | TypeError => TypeError
      | Ok (cs, remainingWords) =>
          reduce_sentences ss' (fst acc ++ cs, remainingWords)
      end
  end.

(** [chunkText(text, words)]. *)
Definition chunkText (txt : str) (words : list Word)
  : result (list Chunk * list Word) :=
  reduce_sentences (sentences txt) ([], words).

(** ** secondsToSRT *)

(** [Math.floor] and [Math.round] (halves go up). *)
Definition Math_floor (x : Q) : Z := Qfloor x.
Definition Math_round (x : Q) : Z := Qfloor (x + (1 # 2))%Q.

(** [x % 1]: the remainder has the sign of [x]. *)
Definition rem_one (x : Q) : Q :=
  (x - inject_Z (if Qle_bool 0 x then Qfloor x else Qceiling x))%Q.

(** Offset from UTC of the zone Europe/Berlin on 1 January 1970, in
    milliseconds (Central European Time).  Germany kept no summer time
    from 1950 to 1979; from April 1980 the offset is two hours in
    summer, which this constant does not follow: it stands for instants
    around the epoch, as the subtitles of a video give. *)
Definition berlinTZA : Z := 3600000.

(** [new Date(1970, 0, 1, 0, 0, s, ms)]: the time value (milliseconds
    since the epoch, UTC) of the LOCAL date 1 January 1970, 0:00 plus
    [s] seconds and [ms] milliseconds.  [localTZA] is the offset from
    UTC of the zone of the host at that date. *)
Definition new_Date_1970 (localTZA s ms : Z) : Z :=
  s * 1000 + ms - localTZA.

Definition digit (n : Z) : ascii := ascii_of_nat (48 + Z.to_nat (n mod 10)).

Definition two_digits (n : Z) : str := [digit (n / 10); digit n].

Definition three_digits (n : Z) : str := [digit (n / 100); digit (n / 10); digit n].

(** Separator between seconds and their fraction in the locale [de]. *)
Definition de_decimal : str := js ",".

(** [HH:MM:SS] then [sep] then [mmm] for a count of milliseconds, hours
    modulo 24. *)
Definition clock_fields (sep : str) (t : Z) : str :=
  two_digits (t / 3600000 mod 24) ++ js ":" ++
  two_digits (t / 60000 mod 60) ++ js ":" ++
  two_digits (t / 1000 mod 60) ++ sep ++
  three_digits (t mod 1000).

(** [formatterTime.format(date)]: the wall clock of Europe/Berlin at the
    time value, with 2-digit hour (0..23), minute, second and three
    fractional digits, in the locale [de].  The source throws a
    [RangeError] for a time value beyond 8640000000000000 in absolute
    value; this function is for time values inside that range, and
    inside the years where [berlinTZA] is the offset. *)
Definition formatterTime_format (timeValue : Z) : str :=
  clock_fields de_decimal (timeValue + berlinTZA).

(** [secondsToSRT(seconds)].  The product [(seconds % 1) * 1000] is
    exact here and rounded to double precision in the source: on whole
    milliseconds up to a day both give the same integer. *)
Definition secondsToSRT (localTZA : Z) (seconds : Q) : str :=
  formatterTime_format
    (new_Date_1970 localTZA
       (Math_floor seconds)
       (Math_round (rem_one seconds * 1000))).

(** ** Ghost views of the loop *)

(** The value of [index] at each iteration that does not [break]: the
    position in the sentence that each consumed word is bound to. *)
Fixpoint bindings (sentence : str) (st : LoopState) (ws : list Word) : list Z :=
  match ws with
  | [] => []
  | w :: rest =>
      let index := indexOf sentence (word w) (chunkEndIndex st) in
      if index <? 0 then []
      else index :: bindings sentence (step sentence st index w) rest
  end.

Definition chunkSentence_bindings (sentence : str) (words : list Word) : list Z :=
  match words with
  | [] => []
  | first :: _ => bindings sentence (init_state first) words
  end.

(** The words that contribute to each chunk: [closed] lists them for the
    chunks pushed so far (one entry per element of [chunks]), [open] for
    the chunk under construction.  A word contributes to the chunk that
    it opens (branch "time for new chunk") or extends (other branch). *)
Fixpoint contributions (sentence : str) (st : LoopState)
    (closed : list (list Word)) (open : list Word) (ws : list Word)
  : list (list Word) * list Word :=
  match ws with
  | [] => (closed, open)
  | w :: rest =>
      let index := indexOf sentence (word w) (chunkEndIndex st) in
      if index <? 0 then (closed, open)
      else if index + len (word w) - chunkStartIndex st >? 30
      then contributions sentence (step sentence st index w)
             (closed ++ [open]) [w] rest
      else contributions sentence (step sentence st index w)
             closed (open ++ [w]) rest
  end.

(** The same choice as [finish]: the words of the last span join those of
    the previous chunk when its text does. *)
Definition finish_contributions (st : LoopState)
    (closed : list (list Word)) (open : list Word) : list (list Word) :=
  if short_span st
  then match rev closed with
       | [] => []
       | last :: before => rev before ++ [last ++ open]
       end
  else closed ++ [open].

(** For each chunk returned by [chunkSentence], in order, its words. *)
Definition chunkSentence_contributions (sentence : str) (words : list Word)
  : list (list Word) :=
  match words with
  | [] => []
  | first :: _ =>
      let '(st, _) := loop sentence (init_state first) 0 words in
      let '(closed, open) :=
        contributions sentence (init_state first) [] [] words in
      finish_contributions st closed open
  end.

(** ** Vocabulary of the statements *)

(** A string with its white space removed. *)
Definition strip_space (s : str) : str :=
  filter (fun c => negb (is_space c)) s.

(** The texts of the chunks, one after the other. *)
Definition joined_text (cs : list Chunk) : str := List.concat (map text cs).

(** The texts of the words, one after the other. *)
Definition joined_words (ws : list Word) : str := List.concat (map word ws).

(** Words in the order of the transcript: start times do not decrease. *)
Definition starts_sorted (ws : list Word) : Prop :=
  Sorted (fun a b => (w_start a <= w_start b)%Q) ws.

(** Every word ends no earlier than it starts. *)
Definition spans_ok (ws : list Word) : Prop :=
  Forall (fun w => (w_start w <= w_end w)%Q) ws.

(** The scenario of the specification. *)
Definition hello_text : str := js "Hello world. Goodbye now.".

Definition hello_words : list Word :=
  [ mkWord (js "Hello") 0 0.4; mkWord (js "world") 0.4 0.9;
    mkWord (js "Goodbye") 1.0 1.6; mkWord (js "now") 1.6 1.9 ]%Q.

Definition that_sentence : str :=
  js "I really do believe you know that that is true".

Definition that_words : list Word :=
  [ mkWord (js "I") 0 0.2; mkWord (js "really") 0.2 0.6;
    mkWord (js "do") 0.6 0.8; mkWord (js "believe") 0.8 1.3;
    mkWord (js "you") 1.3 1.5; mkWord (js "know") 1.5 1.8;
    mkWord (js "that") 1.8 2.1; mkWord (js "that") 2.1 2.4;
    mkWord (js "is") 2.4 2.6; mkWord (js "true") 2.6 3.1 ]%Q.

Definition fox_sentence : str :=
  js "The quick brown fox jumps over the lazy dog".

Definition fox_words : list Word :=
  [ mkWord (js "The") 0 0.3; mkWord (js "quick") 0.3 0.6;
    mkWord (js "brown") 0.6 0.9; mkWord (js "fox") 0.9 1.2;
    mkWord (js "jumps") 1.2 1.5; mkWord (js "over") 1.5 1.8;
    mkWord (js "the") 1.8 1.9; mkWord (js "lazy") 1.9 2.0;
    mkWord (js "dog") 2.0 2.2 ]%Q.

(** A transcript that stops after two words of the sentence. *)
Definition fox_short_words : list Word :=
  [ mkWord (js "The") 0 0.3; mkWord (js "quick") 0.3 0.6 ]%Q.

Definition abc_text : str :=
  js "aaaaaaaaaaaaaaaaaaaabbbbbbbbbbbbbbbbbbbbcccccccccccccccccccc".

Definition abc_words : list Word :=
  [ mkWord (js "aaaaaaaaaaaaaaaaaaaa") 0 1;
    mkWord (js "bbbbbbbbbbbbbbbbbbbb") 1 2;
    mkWord (js "cccccccccccccccccccc") 2 3 ]%Q.

(** ** The loop as a run over the consumed words *)

(** The state after the loop body has run on each word of [ws]. *)
Fixpoint run (sentence : str) (st : LoopState) (ws : list Word) : LoopState :=
  match ws with
  | [] => st
  | w :: rest =>
      run sentence
        (step sentence st (indexOf sentence (word w) (chunkEndIndex st)) w)
        rest
  end.

(** Every word of [ws] is found in the sentence when its turn comes. *)
Fixpoint all_found (sentence : str) (st : LoopState) (ws : list Word) : Prop :=
  match ws with
  | [] => True
  | w :: rest =>
      0 <= indexOf sentence (word w) (chunkEndIndex st) /\
      all_found sentence
        (step sentence st (indexOf sentence (word w) (chunkEndIndex st)) w)
        rest
  end.

(** The loop stops in state [st] on the words [ws]: none is left, or the
    first one is not found at or after the cursor. *)
Definition stops (sentence : str) (st : LoopState) (ws : list Word) : Prop :=
  match ws with
  | [] => True
  | w :: _ => indexOf sentence (word w) (chunkEndIndex st) < 0
  end.

(** The reduction of [chunkText], sentence by sentence: the chunks of
    each sentence and the words left after the last one. *)
Inductive aligned : list str -> list Word -> list (list Chunk) -> list Word -> Prop :=
| aligned_nil : forall ws, aligned [] ws [] ws
| aligned_cons : forall sentence ss ws cs remaining groups final,
    chunkSentence sentence ws = Ok (cs, remaining) ->
    aligned ss remaining groups final ->
    aligned (sentence :: ss) ws (cs :: groups) final.

(** Order of the chunks in time. *)
Definition chunk_le (c d : Chunk) : Prop := (start c <= start d)%Q.

Definition chunk_ok (c : Chunk) : Prop := (start c <= end_ c)%Q.

Definition word_le (a b : Word) : Prop := (w_start a <= w_start b)%Q.

(** What the loop keeps true of the times, the words being sorted: the
    chunks are well formed and sorted, they start between [lb] and the
    start of the chunk under construction, which is well formed too. *)
Record time_inv (lb : Q) (st : LoopState) : Prop := {
  ti_ok : Forall chunk_ok (chunks st);
  ti_sorted : StronglySorted chunk_le (chunks st);
  ti_below : Forall (fun c => (start c <= chunkStartTime st)%Q) (chunks st);
  ti_above : Forall (fun c => (lb <= start c)%Q) (chunks st);
  ti_lb : (lb <= chunkStartTime st)%Q;
  ti_cur : (chunkStartTime st <= chunkEndTime st)%Q
}.

(** What the loop keeps true of the indices: the chunk under
    construction spans at most 30 code units, and so did every chunk
    pushed so far. *)
Record index_inv (st : LoopState) : Prop := {
  ii_start : 0 <= chunkStartIndex st;
  ii_end : 0 <= chunkEndIndex st;
  ii_span : chunkEndIndex st - chunkStartIndex st <= 30;
  ii_chunks : Forall (fun c => len (text c) <= 30) (chunks st)
}.

Definition hello_words_long : list Word :=
  [ mkWord (js "Hello") 0 1.0; mkWord (js "world") 1.0 1.5 ]%Q.

(** ** generateSubtitleFile *)

(** The line feed of the template literal. *)
Definition nl : str := [ascii_of_nat 10].

(** [String(n)] for a non-negative integer: its decimal digits. *)
Definition Number_toString (n : nat) : str :=
  list_ascii_of_string (NilEmpty.string_of_uint (Nat.to_uint n)).

(** [Array.prototype.join(sep)] on strings. *)
Fixpoint join (sep : str) (l : list str) : str :=
  match l with
  | [] => []
  | [x] => x
  | x :: rest => x ++ sep ++ join sep rest
  end.

(** The callback of [chunks.map]: one block of the subtitle file for the
    chunk at position [index]. *)
Definition subtitle_block (localTZA : Z) (c : Chunk) (index : nat) : str :=
  Number_toString (index + 1) ++ nl ++
  secondsToSRT localTZA (start c) ++ js " --> " ++
  secondsToSRT localTZA (end_ c) ++ nl ++
  text c.

(** [chunks.map(callback)], the positions counted from [index]. *)
Fixpoint subtitle_blocks (localTZA : Z) (index : nat) (cs : list Chunk)
  : list str :=
  match cs with
  | [] => []
  | c :: rest =>
      subtitle_block localTZA c index :: subtitle_blocks localTZA (S index) rest
  end.

(** The [content] that [generateSubtitleFile({ text, words })] writes to
    the file; a throw of [chunkText] leaves the function before the
    write. *)
Definition generateSubtitleFile (localTZA : Z) (txt : str) (words : list Word)
  : result str :=
  match chunkText txt words with
  | TypeError => TypeError
  | Ok (cs, _) => Ok (join (nl ++ nl) (subtitle_blocks localTZA 0 cs))
  end.

(** ** More vocabulary *)

Definition all_space (s : str) : Prop := Forall (fun c => is_space c = true) s.

(** The strings that the regular expression of the split matches: white
    space, one delimiter, white space. *)
Definition is_separator (d : str) : Prop :=
  exists a c b,
    d = a ++ c :: b /\ all_space a /\ is_delim c = true /\ all_space b.

(** The pieces with a separator after each one but the last. *)
Fixpoint rebuild (pieces seps : list str) : str :=
  match pieces, seps with
  | p :: ps, d :: ds => p ++ d ++ rebuild ps ds
  | _, _ => List.concat pieces
  end.

(** The chunk [c] spans the words [l]: it starts when the first one
    starts and ends when the last one ends. *)
Definition spans_words (c : Chunk) (l : list Word) : Prop :=
  match l with
  | [] => True
  | w :: _ => start c = w_start w /\ end_ c = w_end (last l w)
  end.

(** The span under construction, for the words [l] given to it so far. *)
Definition open_span (st : LoopState) (l : list Word) : Prop :=
  match l with
  | [] => True
  | w :: _ =>
      chunkStartTime st = w_start w /\ chunkEndTime st = w_end (last l w)
  end.

Definition is_digit (c : ascii) : bool :=
  let n := N_of_ascii c in ((48 <=? n) && (n <=? 57))%N.

Definition digit_value (c : ascii) : Z := Z.of_N (N_of_ascii c) - 48.

(** Reading a time code back: the milliseconds since midnight that the
    twelve code units [HH:MM:SS,mmm] stand for. *)
Definition parse_clock (s : str) : option Z :=
  match s with
  | [h1; h2; _; m1; m2; _; s1; s2; _; f1; f2; f3] =>
      Some ((10 * digit_value h1 + digit_value h2) * 3600000
            + (10 * digit_value m1 + digit_value m2) * 60000
            + (10 * digit_value s1 + digit_value s2) * 1000
            + (100 * digit_value f1 + 10 * digit_value f2 + digit_value f3))
  | _ => None
  end.

(** The count of milliseconds that [secondsToSRT] hands to the [Date]. *)
Definition milliseconds (seconds : Q) : Z :=
  Math_floor seconds * 1000 + Math_round (rem_one seconds * 1000).

(** ** Vocabulary for the reproduction of the text *)

(** The code units that are neither white space nor delimiters. *)
Definition letters (s : str) : str :=
  filter (fun c => negb (is_space c || is_delim c)) s.

(** Along the loop on the words [ws]: each time a word opens a chunk,
    only white space lies between the end of the chunk that it closes
    ([chunkEndIndex]) and the word ([index]). *)
Fixpoint blank_gaps (sentence : str) (st : LoopState) (ws : list Word) : Prop :=
  match ws with
  | [] => True
  | w :: rest =>
      let index := indexOf sentence (word w) (chunkEndIndex st) in
      if index <? 0 then True
      else
        (if index + len (word w) - chunkStartIndex st >? 30
         then all_space (slice sentence (chunkEndIndex st) index)
         else True) /\
        blank_gaps sentence (step sentence st index w) rest
  end.

(** The same for every sentence of the reduction of [chunkText], each
    with the words that the sentences before it left. *)
Fixpoint blank_gaps_text (ss : list str) (ws : list Word) : Prop :=
  match ss with
  | [] => True
  | sentence :: ss' =>
      match ws with
      | [] => True
      | first :: _ => blank_gaps sentence (init_state first) ws
      end /\
      match chunkSentence sentence ws with
      | Ok (_, remainingWords) => blank_gaps_text ss' remainingWords
      | TypeError => True
      end
  end.

(** What the loop keeps true of the text, the gaps being blank: the
    chunks pushed and the chunk under construction hold the letters of
    the sentence up to [chunkEndIndex]. *)
Record cover_inv (sentence : str) (st : LoopState) : Prop := {
  ci_start : 0 <= chunkStartIndex st;
  ci_order : chunkStartIndex st <= chunkEndIndex st;
  ci_end : chunkEndIndex st <= len sentence;
  ci_letters :
    letters (joined_text (chunks st)) ++
    letters (slice sentence (chunkStartIndex st) (chunkEndIndex st))
    = letters (slice sentence 0 (chunkEndIndex st))
}.

(** A narration whose words, one after the other, are the text, the
    last one holding the final dot. *)
Definition dot_text : str := js "Hello world.".

Definition dot_words : list Word :=
  [ mkWord (js "Hello ") 0 0.5; mkWord (js "world.") 0.5 0.9 ]%Q.

(** ** Checks on concrete inputs *)

Example split_hello :
  split (js "Hello world. Goodbye now.")
  = [js "Hello world"; js "Goodbye now"; js ""].
Proof. reflexivity. Qed.

Example sentences_hello :
  sentences (js "Hello world. Goodbye now.")
  = [js "Hello world"; js "Goodbye now"].
Proof. reflexivity. Qed.

Example indexOf_the :
  indexOf (js "the cat sat on the mat") (js "the") 3 = 15.
Proof. reflexivity. Qed.

Example slice_mid : slice (js "Hello world") 6 11 = js "world".
Proof. reflexivity. Qed.


(** ** Facts about the string primitives *)

Lemma len_nonneg (s : str) : 0 <= len s.
Proof. unfold len; lia. Qed.

Lemma len_app (a b : str) : len (a ++ b) = len a + len b.
Proof. unfold len; rewrite length_app; lia. Qed.

Lemma is_prefix_length (w : str) :
  forall s, is_prefix w s = true -> (List.length w <= List.length s)%nat.
Proof.
  induction w as [|a w IH]; intros [|b s] H; simpl in *;
    try discriminate; try lia.
  apply andb_true_iff in H as [_ H]. apply IH in H. lia.
Qed.

Lemma is_prefix_firstn (w : str) :
  forall s, is_prefix w s = true -> firstn (List.length w) s = w.
Proof.
  induction w as [|a w IH]; intros [|b s] H; simpl in *;
    try reflexivity; try discriminate.
  apply andb_true_iff in H as [Hab H].
  apply Ascii.eqb_eq in Hab. subst b. f_equal. now apply IH.
Qed.

Lemma find_from_spec (w : str) :
  forall s k n,
    find_from w s k = Some n ->
    (k <= n)%nat /\
    (n - k + List.length w <= List.length s)%nat /\
    is_prefix w (skipn (n - k) s) = true.
Proof.
  induction s as [|c s IH]; intros k n H; simpl in H.
  - destruct (is_prefix w []) eqn:E; [|discriminate].
    injection H as <-. rewrite Nat.sub_diag. simpl.
    apply is_prefix_length in E as L. simpl in L. repeat split; auto; lia.
  - destruct (is_prefix w (c :: s)) eqn:E.
    + injection H as <-. rewrite Nat.sub_diag. simpl skipn.
      apply is_prefix_length in E as L. repeat split; auto; lia.
    + apply IH in H as (Hk & Hl & Hp).
      replace (n - k)%nat with (S (n - S k)) by lia.
      simpl. repeat split; auto; lia.
Qed.

(** The earlier positions, from the start of the search, hold no
    occurrence. *)
Lemma find_from_first (w : str) :
  forall s k n m,
    find_from w s k = Some n ->
    (k <= m < n)%nat ->
    is_prefix w (skipn (m - k) s) = false.
Proof.
  induction s as [|c s IH]; intros k n m H Hm; simpl in H.
  - destruct (is_prefix w []); [injection H as <-; lia | discriminate].
  - destruct (is_prefix w (c :: s)) eqn:E.
    + injection H as <-. lia.
    + destruct (Nat.eq_dec m k) as [->|Hne].
      * rewrite Nat.sub_diag. exact E.
      * replace (m - k)%nat with (S (m - S k)) by lia. simpl.
        apply (IH (S k) n); auto. lia.
Qed.

Lemma indexOf_found (s w : str) (position : Z) :
  0 <= indexOf s w position ->
  clamp s position <= indexOf s w position /\
  indexOf s w position + len w <= len s /\
  slice s (indexOf s w position) (indexOf s w position + len w) = w.
Proof.
  unfold indexOf. set (p := clamp s position).
  assert (Hp : 0 <= p <= len s)
    by (unfold p, clamp; pose proof (len_nonneg s); lia).
  destruct (find_from w (skipn (Z.to_nat p) s) (Z.to_nat p)) as [n|] eqn:E;
    [intros _ | lia].
  apply find_from_spec in E as (Hk & Hl & Hpre).
  rewrite length_skipn in Hl. unfold len in *.
  assert (Hn : (n + List.length w <= List.length s)%nat) by lia.
  repeat split; try lia.
  unfold slice, rel_index, len.
  destruct (Z.of_nat n <? 0) eqn:E1; [apply Z.ltb_lt in E1; lia|].
  destruct (Z.of_nat n + Z.of_nat (List.length w) <? 0) eqn:E2;
    [apply Z.ltb_lt in E2; lia|].
  rewrite !Z.min_l by lia.
  replace (Z.to_nat (Z.of_nat n + Z.of_nat (List.length w) - Z.of_nat n))
    with (List.length w) by lia.
  rewrite Nat2Z.id.
  rewrite skipn_skipn in Hpre.
  replace (n - Z.to_nat p + Z.to_nat p)%nat with n in Hpre by lia.
  now apply is_prefix_firstn.
Qed.

Lemma indexOf_range (s w : str) (position : Z) :
  -1 <= indexOf s w position.
Proof.
  unfold indexOf.
  destruct (find_from _ _ _); lia.
Qed.

(** Between the start of the search and the answer of [indexOf] the word
    does not occur: the answer is the nearest occurrence. *)
Lemma indexOf_nearest (s w : str) (position m : Z) :
  0 <= indexOf s w position ->
  clamp s position <= m < indexOf s w position ->
  is_prefix w (skipn (Z.to_nat m) s) = false.
Proof.
  unfold indexOf. set (p := clamp s position).
  assert (Hp : 0 <= p <= len s)
    by (unfold p, clamp; pose proof (len_nonneg s); lia).
  destruct (find_from w (skipn (Z.to_nat p) s) (Z.to_nat p)) as [n|] eqn:E;
    [intros _ Hm | lia].
  apply (find_from_first _ _ _ _ (Z.to_nat m)) in E; [|lia].
  rewrite skipn_skipn in E.
  replace (Z.to_nat m - Z.to_nat p + Z.to_nat p)%nat with (Z.to_nat m) in E by lia.
  exact E.
Qed.

Lemma slice_length (s : str) (a b : Z) :
  0 <= a -> 0 <= b -> len (slice s a b) <= Z.max 0 (b - a).
Proof.
  intros Ha Hb. unfold slice, rel_index.
  destruct (a <? 0) eqn:Ea; [apply Z.ltb_lt in Ea; lia|].
  destruct (b <? 0) eqn:Eb; [apply Z.ltb_lt in Eb; lia|].
  unfold len. rewrite length_firstn, length_skipn. lia.
Qed.

Lemma slice_from_0 (s : str) : slice_from s 0 = s.
Proof.
  unfold slice_from, slice, rel_index. simpl (0 <? 0).
  pose proof (len_nonneg s) as H.
  destruct (len s <? 0) eqn:E; [apply Z.ltb_lt in E; lia|].
  rewrite Z.min_id, (Z.min_l 0) by lia. simpl skipn.
  unfold len. rewrite Z.sub_0_r, Nat2Z.id. apply firstn_all.
Qed.

Lemma drop_space_length (s : str) :
  (List.length (drop_space s) <= List.length s)%nat.
Proof.
  induction s as [|c s IH]; simpl; [lia|].
  destruct (is_space c); simpl; lia.
Qed.

Lemma match_delimiter_shorter (s rest : str) :
  match_delimiter s = Some rest -> (List.length rest < List.length s)%nat.
Proof.
  unfold match_delimiter.
  pose proof (drop_space_length s) as H.
  destruct (drop_space s) as [|c s'] eqn:E; [discriminate|].
  destruct (is_delim c); [|discriminate].
  intros [= <-]. pose proof (drop_space_length s') as H'. simpl in H. lia.
Qed.

(** The fuel given by [split] is enough: more fuel changes nothing. *)
Lemma split_loop_fuel :
  forall fuel1 fuel2 piece s,
    (List.length s < fuel1)%nat -> (List.length s < fuel2)%nat ->
    split_loop fuel1 piece s = split_loop fuel2 piece s.
Proof.
  induction fuel1 as [|f1 IH]; intros [|f2] piece s H1 H2; try lia.
  simpl. destruct s as [|c s']; [reflexivity|].
  destruct (match_delimiter (c :: s')) as [rest|] eqn:E.
  - apply match_delimiter_shorter in E. simpl in *.
    f_equal. apply IH; lia.
  - simpl in *. apply IH; lia.
Qed.


(** ** Facts about lists *)

Lemma StronglySorted_snoc {A} (R : A -> A -> Prop) (l : list A) (x : A) :
  StronglySorted R l -> Forall (fun y => R y x) l ->
  StronglySorted R (l ++ [x]).
Proof.
  induction 1 as [|a l Hs IH Ha]; intros Hx; simpl.
  - repeat constructor.
  - inversion Hx; subst. constructor; [auto|].
    apply Forall_app; split; auto.
Qed.

Lemma StronglySorted_app {A} (R : A -> A -> Prop) (l1 l2 : list A) :
  StronglySorted R l1 -> StronglySorted R l2 ->
  Forall (fun x => Forall (R x) l2) l1 ->
  StronglySorted R (l1 ++ l2).
Proof.
  induction 1 as [|a l Hs IH Ha]; intros H2 Hx; simpl; [exact H2|].
  inversion Hx; subst. constructor; [auto|].
  apply Forall_app; split; auto.
Qed.

Lemma StronglySorted_app_inv {A} (R : A -> A -> Prop) (l1 l2 : list A) :
  StronglySorted R (l1 ++ l2) ->
  StronglySorted R l1 /\ StronglySorted R l2 /\
  Forall (fun x => Forall (R x) l2) l1.
Proof.
  induction l1 as [|a l1 IH]; simpl; intros H.
  - repeat split; auto; constructor.
  - inversion H as [|? ? Hs Ha]; subst.
    apply IH in Hs as (H1 & H2 & H3).
    apply Forall_app in Ha as [Ha1 Ha2].
    repeat split; auto; constructor; auto.
Qed.

Lemma StronglySorted_nth_succ {A} (R : A -> A -> Prop) (l : list A) :
  StronglySorted R l ->
  forall i a b,
    nth_error l i = Some a -> nth_error l (S i) = Some b -> R a b.
Proof.
  induction 1 as [|x l Hs IH Hx]; intros i a b Ha Hb.
  - destruct i; discriminate.
  - destruct i as [|i]; simpl in *.
    + injection Ha as <-. destruct l as [|y l]; [discriminate|].
      simpl in Hb. injection Hb as <-. now inversion Hx.
    + eapply IH; eauto.
Qed.

Lemma rev_eq_cons {A} (l : list A) (x : A) (t : list A) :
  rev l = x :: t -> l = rev t ++ [x].
Proof.
  intros H. rewrite <- (rev_involutive l), H. reflexivity.
Qed.

(** ** The loop is a run over a prefix of the words *)

Section Loop.

Variable sentence : str.

Lemma loop_run :
  forall ws st i,
  exists consumed rest,
    ws = consumed ++ rest /\
    loop sentence st i ws
    = (run sentence st consumed, (i + List.length consumed)%nat) /\
    all_found sentence st consumed /\
    stops sentence (run sentence st consumed) rest.
Proof.
  induction ws as [|w ws IH]; intros st i.
  - exists [], []. simpl. rewrite Nat.add_0_r. auto.
  - simpl.
    destruct (indexOf sentence (word w) (chunkEndIndex st) <? 0) eqn:E.
    + exists [], (w :: ws). simpl. rewrite Nat.add_0_r.
      apply Z.ltb_lt in E. auto.
    + apply Z.ltb_ge in E.
      destruct (IH (step sentence st
                      (indexOf sentence (word w) (chunkEndIndex st)) w) (S i))
        as (consumed & rest & -> & Hl & Hf & Hs).
      exists (w :: consumed), rest. simpl.
      rewrite Hl. split; [reflexivity|].
      split; [f_equal; lia|]. split; [split; assumption|assumption].
Qed.

(** The last step returns at least one chunk. *)
Lemma finish_nonempty (st : LoopState) (cs : list Chunk) :
  finish sentence st = Ok cs -> cs <> [].
Proof.
  unfold finish, append_to_last. destruct (short_span st).
  - destruct (rev (chunks st)); [discriminate|].
    intros [= <-] H. now apply app_eq_nil in H as [_ H].
  - intros [= <-] H. now apply app_eq_nil in H as [_ H].
Qed.

(** The shape of a call that returns. *)
Lemma chunkSentence_Ok (words : list Word) (cs : list Chunk) (rem : list Word) :
  chunkSentence sentence words = Ok (cs, rem) ->
  exists first consumed,
    hd_error words = Some first /\
    words = consumed ++ rem /\
    all_found sentence (init_state first) consumed /\
    stops sentence (run sentence (init_state first) consumed) rem /\
    finish sentence (run sentence (init_state first) consumed) = Ok cs.
Proof.
  unfold chunkSentence. destruct words as [|first tl]; [discriminate|].
  destruct (loop_run (first :: tl) (init_state first) 0)
    as (consumed & rest & Hw & Hl & Hf & Hs).
  rewrite Hl.
  destruct (finish sentence (run sentence (init_state first) consumed))
    as [cs'|] eqn:Efin; [|discriminate].
  intros [= <- <-]. exists first, consumed. simpl (0 + _)%nat.
  assert (Hrest : skipn (List.length consumed) (first :: tl) = rest).
  { rewrite Hw, skipn_app, skipn_all, Nat.sub_diag. reflexivity. }
  rewrite Hrest. repeat split; auto.
Qed.

End Loop.

(** ** Times: what the loop and the last step keep true *)

Section Times.

Variable sentence : str.

Lemma time_inv_init (lb : Q) (first : Word) :
  (lb <= w_start first)%Q -> time_inv lb (init_state first).
Proof.
  intros H. constructor; simpl; try constructor; auto. apply Qle_refl.
Qed.

Lemma time_inv_step (lb : Q) (st : LoopState) (index : Z) (w : Word) :
  time_inv lb st ->
  (chunkStartTime st <= w_start w)%Q ->
  (w_start w <= w_end w)%Q ->
  time_inv lb (step sentence st index w) /\
  (chunkStartTime (step sentence st index w) <= w_start w)%Q.
Proof.
  intros [Hok Hso Hbe Hab Hlb Hcur] Hw Hwe. unfold step.
  destruct (index + len (word w) - chunkStartIndex st >? 30);
    unfold new_chunk, extend_chunk; simpl.
  - split; [|apply Qle_refl].
    constructor; simpl.
    + apply Forall_app; split; [exact Hok|].
      constructor; [exact Hcur | constructor].
    + apply StronglySorted_snoc; [exact Hso | exact Hbe].
    + apply Forall_app; split.
      * eapply Forall_impl; [|exact Hbe]. simpl; intros c Hc.
        eapply Qle_trans; eauto.
      * constructor; [exact Hw | constructor].
    + apply Forall_app; split; [exact Hab|].
      constructor; [exact Hlb | constructor].
    + eapply Qle_trans; eauto.
    + exact Hwe.
  - split; [|exact Hw].
    constructor; simpl; auto. eapply Qle_trans; eauto.
Qed.

Lemma time_inv_run (lb : Q) :
  forall consumed rest st,
    time_inv lb st ->
    StronglySorted word_le (consumed ++ rest) ->
    spans_ok (consumed ++ rest) ->
    Forall (fun w => (chunkStartTime st <= w_start w)%Q) (consumed ++ rest) ->
    time_inv lb (run sentence st consumed) /\
    Forall (fun w => (chunkStartTime (run sentence st consumed) <= w_start w)%Q)
      rest.
Proof.
  induction consumed as [|w consumed IH]; intros rest st Hinv Hso Hok Hge;
    simpl in *; [auto|].
  inversion Hso as [|? ? Hso' Hw]; subst.
  inversion Hok as [|? ? Hwe Hok']; subst.
  inversion Hge as [|? ? Hgw Hge']; subst.
  destruct (time_inv_step lb st
              (indexOf sentence (word w) (chunkEndIndex st)) w Hinv Hgw Hwe)
    as [Hinv' Hle].
  apply IH; auto.
  eapply Forall_impl; [|exact Hw]. simpl; intros a Ha.
  eapply Qle_trans; eauto.
Qed.

(** The last step changes no time of a chunk already pushed. *)
Lemma time_inv_finish (lb : Q) (st : LoopState) (cs : list Chunk) :
  time_inv lb st ->
  finish sentence st = Ok cs ->
  Forall chunk_ok cs /\ StronglySorted chunk_le cs /\
  Forall (fun c => (start c <= chunkStartTime st)%Q) cs /\
  Forall (fun c => (lb <= start c)%Q) cs.
Proof.
  intros [Hok Hso Hbe Hab Hlb Hcur]. unfold finish, append_to_last.
  destruct (short_span st).
  - destruct (rev (chunks st)) as [|last before] eqn:E; [discriminate|].
    apply rev_eq_cons in E. rewrite E in *. intros [= <-].
    apply Forall_app in Hok as [Hok1 Hok2].
    apply Forall_app in Hbe as [Hbe1 Hbe2].
    apply Forall_app in Hab as [Hab1 Hab2].
    apply StronglySorted_app_inv in Hso as (Hso1 & _ & Hso3).
    inversion Hok2; inversion Hbe2; inversion Hab2; subst.
    split; [|split; [|split]].
    + apply Forall_app; split; [exact Hok1|].
      constructor; [assumption | constructor].
    + apply StronglySorted_snoc; [exact Hso1|].
      eapply Forall_impl; [|exact Hso3]. simpl; intros c Hc.
      now inversion Hc.
    + apply Forall_app; split; [exact Hbe1|].
      constructor; [assumption | constructor].
    + apply Forall_app; split; [exact Hab1|].
      constructor; [assumption | constructor].
  - intros [= <-]. split; [|split; [|split]].
    + apply Forall_app; split; [exact Hok|].
      constructor; [exact Hcur | constructor].
    + apply StronglySorted_snoc; [exact Hso | exact Hbe].
    + apply Forall_app; split; [exact Hbe|].
      constructor; [apply Qle_refl | constructor].
    + apply Forall_app; split; [exact Hab|].
      constructor; [exact Hlb | constructor].
Qed.

Lemma word_le_trans (a b c : Word) : word_le a b -> word_le b c -> word_le a c.
Proof. unfold word_le. apply Qle_trans. Qed.

Lemma starts_sorted_strongly (ws : list Word) :
  starts_sorted ws -> StronglySorted word_le ws.
Proof.
  intros H. apply Sorted_StronglySorted; auto.
  intros a b c. apply word_le_trans.
Qed.

(** One sentence: the times of its chunks, and of the words it leaves. *)
Lemma chunkSentence_times (lb : Q) (words : list Word)
    (cs : list Chunk) (rem : list Word) :
  StronglySorted word_le words ->
  spans_ok words ->
  Forall (fun w => (lb <= w_start w)%Q) words ->
  chunkSentence sentence words = Ok (cs, rem) ->
  Forall chunk_ok cs /\ StronglySorted chunk_le cs /\
  Forall (fun c => (lb <= start c)%Q) cs /\
  exists t,
    Forall (fun c => (start c <= t)%Q) cs /\
    Forall (fun w => (t <= w_start w)%Q) rem /\
    StronglySorted word_le rem /\ spans_ok rem.
Proof.
  intros Hso Hok Hlb H.
  apply chunkSentence_Ok in H
    as (first & consumed & Hhd & Hw & _ & _ & Hfin).
  destruct words as [|w0 tl]; [discriminate|]. injection Hhd as ->.
  assert (Hfirst : Forall (fun w => (w_start first <= w_start w)%Q) (first :: tl)).
  { inversion Hso; subst. constructor; [apply Qle_refl|assumption]. }
  assert (Hinit : time_inv lb (init_state first)).
  { apply time_inv_init. now inversion Hlb. }
  rewrite Hw in Hso, Hok, Hfirst.
  destruct (time_inv_run lb consumed rem (init_state first) Hinit Hso Hok Hfirst)
    as [Hinv Hrem].
  destruct (time_inv_finish lb _ cs Hinv Hfin) as (H1 & H2 & H3 & H4).
  repeat split; auto.
  exists (chunkStartTime (run sentence (init_state first) consumed)).
  apply StronglySorted_app_inv in Hso as (_ & Hso2 & _).
  apply Forall_app in Hok as [_ Hok2].
  auto.
Qed.

End Times.

(** ** chunkText, sentence by sentence *)

Lemma reduce_sentences_aligned :
  forall ss acc ws cues rem,
    reduce_sentences ss (acc, ws) = Ok (cues, rem) ->
    exists groups,
      aligned ss ws groups rem /\ cues = acc ++ List.concat groups.
Proof.
  induction ss as [|s ss IH]; intros acc ws cues rem H; simpl in H.
  - injection H as <- <-. exists []. simpl. rewrite app_nil_r.
    split; [constructor | reflexivity].
  - destruct (chunkSentence s ws) as [[cs remaining]|] eqn:E; [|discriminate].
    apply IH in H as (groups & Hal & ->).
    exists (cs :: groups). simpl. rewrite app_assoc.
    split; [econstructor; eauto | reflexivity].
Qed.

Lemma chunkText_aligned (txt : str) (words : list Word)
    (cues : list Chunk) (rem : list Word) :
  chunkText txt words = Ok (cues, rem) ->
  exists groups,
    aligned (sentences txt) words groups rem /\ cues = List.concat groups.
Proof.
  unfold chunkText. intros H.
  apply reduce_sentences_aligned in H as (groups & Hal & ->).
  exists groups. auto.
Qed.

Lemma aligned_length ss ws groups final :
  aligned ss ws groups final -> List.length groups = List.length ss.
Proof. induction 1; simpl; auto. Qed.

Lemma aligned_times :
  forall ss ws groups final,
    aligned ss ws groups final ->
    forall lb,
      StronglySorted word_le ws ->
      spans_ok ws ->
      Forall (fun w => (lb <= w_start w)%Q) ws ->
      Forall chunk_ok (List.concat groups) /\
      StronglySorted chunk_le (List.concat groups) /\
      Forall (fun c => (lb <= start c)%Q) (List.concat groups).
Proof.
  induction 1 as [ws | s ss ws cs remaining groups final Hcs Hal IH];
    intros lb Hso Hok Hlb; simpl.
  - repeat split; constructor.
  - destruct (chunkSentence_times s lb ws cs remaining Hso Hok Hlb Hcs)
      as (H1 & H2 & H3 & t & Ht1 & Ht2 & Hso' & Hok').
    destruct (IH t Hso' Hok' Ht2) as (I1 & I2 & I3).
    repeat split.
    + apply Forall_app; auto.
    + apply StronglySorted_app; auto.
      eapply Forall_impl; [|exact Ht1]. simpl; intros c Hc.
      eapply Forall_impl; [|exact I3]. simpl; intros d Hd.
      unfold chunk_le. eapply Qle_trans; eauto.
    + apply Forall_app; split; auto.
      eapply Forall_impl; [|exact I3]. simpl; intros d Hd.
      destruct cs as [|c cs'].
      * apply chunkSentence_Ok in Hcs as (f & co & _ & _ & _ & _ & Hfin).
        now apply finish_nonempty in Hfin.
      * inversion H3; inversion Ht1; subst.
        eapply Qle_trans; [eassumption|]. eapply Qle_trans; eauto.
Qed.

(** ** Indices: the length of the chunks closed inside the loop *)

Section Indices.

Variable sentence : str.

Lemma index_inv_init (first : Word) : index_inv (init_state first).
Proof. constructor; simpl; try lia. constructor. Qed.

Lemma index_inv_step (st : LoopState) (index : Z) (w : Word) :
  index_inv st -> 0 <= index -> index_inv (step sentence st index w).
Proof.
  intros [Hs He Hsp Hch] Hi. unfold step.
  destruct (index + len (word w) - chunkStartIndex st >? 30) eqn:E;
    unfold new_chunk, extend_chunk; constructor; simpl; try lia.
  - apply Forall_app; split; [exact Hch|].
    constructor; [|constructor]. simpl.
    pose proof (slice_length sentence _ _ Hs He). lia.
  - pose proof (len_nonneg (word w)). lia.
  - exact Hch.
Qed.

Lemma index_inv_run :
  forall consumed st,
    index_inv st -> all_found sentence st consumed ->
    index_inv (run sentence st consumed).
Proof.
  induction consumed as [|w consumed IH]; intros st Hinv Hf; simpl in *;
    [exact Hinv|].
  destruct Hf as [Hi Hf]. apply IH; [|exact Hf].
  now apply index_inv_step.
Qed.

(** All the chunks returned but the last one were pushed inside the
    loop. *)
Lemma finish_removelast (st : LoopState) (cs : list Chunk) :
  finish sentence st = Ok cs ->
  exists l, chunks st = removelast cs ++ l.
Proof.
  unfold finish, append_to_last. destruct (short_span st).
  - destruct (rev (chunks st)) as [|last before] eqn:E; [discriminate|].
    apply rev_eq_cons in E. intros [= <-].
    rewrite removelast_last. exists [last]. exact E.
  - intros [= <-]. rewrite removelast_last. exists []. now rewrite app_nil_r.
Qed.

Lemma chunkSentence_closed_short (words : list Word)
    (cs : list Chunk) (rem : list Word) :
  chunkSentence sentence words = Ok (cs, rem) ->
  cs <> [] /\ Forall (fun c => len (text c) <= 30) (removelast cs).
Proof.
  intros H.
  apply chunkSentence_Ok in H as (first & consumed & _ & _ & Hf & _ & Hfin).
  split; [eapply finish_nonempty; eauto|].
  pose proof (index_inv_run consumed _ (index_inv_init first) Hf) as [_ _ _ Hch].
  destruct (finish_removelast _ _ Hfin) as [l Hl].
  rewrite Hl in Hch. now apply Forall_app in Hch as [Hch _].
Qed.

(** A sentence of at most 30 code units: the loop pushes nothing. *)
Lemma run_small :
  len sentence <= 30 ->
  forall consumed st,
    chunks st = [] -> chunkStartIndex st = 0 ->
    all_found sentence st consumed ->
    chunks (run sentence st consumed) = [] /\
    chunkStartIndex (run sentence st consumed) = 0.
Proof.
  intros Hlen. induction consumed as [|w consumed IH]; intros st Hc Hs Hf;
    simpl in *; [auto|].
  destruct Hf as [Hi Hf].
  apply indexOf_found in Hi as Hb. destruct Hb as (_ & Hb & _).
  revert Hf. unfold step at 1 2 3.
  destruct (indexOf sentence (word w) (chunkEndIndex st) + len (word w)
            - chunkStartIndex st >? 30) eqn:E.
  - rewrite Z.gtb_ltb in E. apply Z.ltb_lt in E. lia.
  - intros Hf. apply IH; auto.
Qed.

Lemma chunkSentence_small (words : list Word)
    (cs : list Chunk) (rem : list Word) :
  len sentence <= 30 ->
  chunkSentence sentence words = Ok (cs, rem) ->
  map text cs = [sentence].
Proof.
  intros Hlen H.
  apply chunkSentence_Ok in H as (first & consumed & _ & _ & Hf & _ & Hfin).
  destruct (run_small Hlen consumed (init_state first) eq_refl eq_refl Hf)
    as [Hc Hs].
  unfold finish, append_to_last in Hfin. rewrite Hc, Hs in Hfin.
  destruct (short_span _); [discriminate|].
  injection Hfin as <-. simpl. now rewrite slice_from_0.
Qed.

End Indices.

Lemma aligned_closed_short :
  forall ss ws groups final,
    aligned ss ws groups final ->
    Forall (fun g => g <> [] /\
                     Forall (fun c => len (text c) <= 30) (removelast g))
      groups.
Proof.
  induction 1 as [ws | s ss ws cs remaining groups final Hcs Hal IH];
    constructor; auto.
  eapply chunkSentence_closed_short; eauto.
Qed.

Lemma aligned_small :
  forall ss ws groups final,
    aligned ss ws groups final ->
    Forall (fun s => len s <= 30) ss ->
    map text (List.concat groups) = ss.
Proof.
  induction 1 as [ws | s ss ws cs remaining groups final Hcs Hal IH];
    intros Hlen; simpl; [reflexivity|].
  inversion Hlen; subst. rewrite map_app, IH by assumption.
  erewrite chunkSentence_small; eauto. reflexivity.
Qed.

(** ** The ghost views agree with the loop *)

Section Ghost.

Variable sentence : str.

Lemma bindings_length :
  forall ws st i,
    (i + List.length (bindings sentence st ws))%nat
    = snd (loop sentence st i ws).
Proof.
  induction ws as [|w ws IH]; intros st i; simpl; [lia|].
  destruct (indexOf sentence (word w) (chunkEndIndex st) <? 0); simpl; [lia|].
  rewrite <- IH. lia.
Qed.

(** The words given to the chunks are the consumed words, in order, and
    there is one list of words per chunk pushed. *)
Lemma contributions_loop :
  forall ws st i closed open,
    let r := contributions sentence st closed open ws in
    let st' := fst (loop sentence st i ws) in
    let i' := snd (loop sentence st i ws) in
    List.concat (fst r) ++ snd r
    = List.concat closed ++ open ++ firstn (i' - i) ws /\
    (List.length (fst r) + List.length (chunks st)
     = List.length closed + List.length (chunks st'))%nat /\
    (i <= i')%nat.
Proof.
  induction ws as [|w ws IH]; intros st i closed open; simpl.
  - rewrite firstn_nil, app_nil_r. repeat split; lia.
  - destruct (indexOf sentence (word w) (chunkEndIndex st) <? 0) eqn:E; simpl.
    + rewrite Nat.sub_diag. simpl. rewrite app_nil_r. repeat split; lia.
    + unfold step.
      destruct (indexOf sentence (word w) (chunkEndIndex st) + len (word w)
                - chunkStartIndex st >? 30) eqn:E30.
      * specialize (IH (new_chunk sentence st
                          (indexOf sentence (word w) (chunkEndIndex st)) w)
                       (S i) (closed ++ [open]) [w]).
        simpl in IH. destruct IH as (H1 & H2 & H3).
        rewrite H1, concat_app. simpl. rewrite app_nil_r, <- !app_assoc.
        rewrite !length_app in H2. simpl in H2.
        replace (snd (loop sentence _ (S i) ws) - i)%nat
          with (S (snd (loop sentence
                          (new_chunk sentence st
                             (indexOf sentence (word w) (chunkEndIndex st)) w)
                          (S i) ws) - S i)) by lia.
        simpl. repeat split; lia.
      * specialize (IH (extend_chunk st
                          (indexOf sentence (word w) (chunkEndIndex st)) w)
                       (S i) closed (open ++ [w])).
        simpl in IH. destruct IH as (H1 & H2 & H3).
        rewrite H1, <- !app_assoc.
        replace (snd (loop sentence _ (S i) ws) - i)%nat
          with (S (snd (loop sentence
                          (extend_chunk st
                             (indexOf sentence (word w) (chunkEndIndex st)) w)
                          (S i) ws) - S i)) by lia.
        simpl. repeat split; lia.
Qed.

(** Every word of the transcript is in the list of at most one chunk:
    the lists of the chunks, then the remaining words, are the words. *)
Lemma chunkSentence_contributions_partition (words : list Word)
    (cs : list Chunk) (rem : list Word) :
  chunkSentence sentence words = Ok (cs, rem) ->
  List.concat (chunkSentence_contributions sentence words) ++ rem = words /\
  List.length (chunkSentence_contributions sentence words) = List.length cs.
Proof.
  unfold chunkSentence, chunkSentence_contributions.
  destruct words as [|first tl]; [discriminate|].
  pose proof (contributions_loop (first :: tl) (init_state first) 0 [] [])
    as (H1 & H2 & _).
  destruct (loop sentence (init_state first) 0 (first :: tl)) as [st i].
  destruct (contributions sentence (init_state first) [] [] (first :: tl))
    as [closed open].
  simpl in H1, H2. rewrite Nat.sub_0_r in H1. rewrite Nat.add_0_r in H2.
  unfold finish, finish_contributions, append_to_last.
  destruct (short_span st).
  - destruct (rev (chunks st)) as [|last before] eqn:E; [discriminate|].
    apply rev_eq_cons in E. intros [= <- <-].
    rewrite E, length_app in H2. simpl in H2.
    destruct (rev closed) as [|lastw beforew] eqn:Ew.
    + apply (f_equal (@List.length _)) in Ew.
      rewrite length_rev in Ew. simpl in Ew. lia.
    + apply rev_eq_cons in Ew. subst closed.
      rewrite concat_app in H1 |- *. simpl in H1 |- *.
      rewrite app_nil_r in H1 |- *. rewrite <- !app_assoc in H1 |- *.
      rewrite !length_app in *. simpl in *. split; [|lia].
      rewrite <- (firstn_skipn i (first :: tl)) at 2. rewrite <- H1.
      now rewrite <- !app_assoc.
  - intros [= <- <-]. rewrite concat_app. simpl. rewrite app_nil_r.
    rewrite H1, firstn_skipn, !length_app. simpl. split; [reflexivity | lia].
Qed.

End Ghost.

(** ** Times of a lone span *)

Lemma short_span_init (first : Word) : short_span (init_state first) = true.
Proof.
  unfold short_span, init_state. cbn [chunkEndTime chunkStartTime].
  assert (H : (w_start first - w_start first < 0.5)%Q).
  { unfold Qminus. rewrite Qplus_opp_r. reflexivity. }
  now rewrite (proj1 (Qlt_alt _ _) H).
Qed.

(** A sentence whose loop pushed no chunk and whose span is short: the
    last step reads the [text] of [undefined]. *)
Lemma chunkSentence_lone_short_span (sentence : str) (first : Word)
    (rest : list Word) (st : LoopState) (i : nat) :
  loop sentence (init_state first) 0 (first :: rest) = (st, i) ->
  chunks st = [] ->
  short_span st = true ->
  chunkSentence sentence (first :: rest) = TypeError.
Proof.
  intros Hl Hc Hs. unfold chunkSentence. rewrite Hl.
  unfold finish, append_to_last. now rewrite Hs, Hc.
Qed.

(** ** The properties of the specification *)

(** C1, as stated, fails: [secondsToSRT] never separates the
    milliseconds with a dot (on a host in the zone of the formatter
    75.256 gives "00:01:15,256"), and the hour depends on the zone of
    the host (on a host on UTC it gives "01:01:15,256"). *)
Lemma secondsToSRT_not_dotted :
  secondsToSRT berlinTZA 75.256 = js "00:01:15,256" /\
  secondsToSRT berlinTZA 75.256 <> js "00:01:15.256" /\
  secondsToSRT 0 75.256 = js "01:01:15,256" /\
  secondsToSRT 0 75.256 <> js "00:01:15.256".
Proof.
  repeat split; try (vm_compute; reflexivity); vm_compute; discriminate.
Qed.

(** An offset of [k] whole milliseconds gives the count [k]. *)
Lemma milliseconds_whole (k : Z) : 0 <= k -> milliseconds (k # 1000) = k.
Proof.
  intros Hk. unfold milliseconds, Math_floor, Math_round, rem_one.
  assert (H0 : Qle_bool 0 (k # 1000) = true)
    by (apply Qle_bool_iff; unfold Qle; cbn [Qnum Qden]; lia).
  rewrite H0.
  assert (Hf : Qfloor (k # 1000) = k / 1000) by reflexivity.
  rewrite Hf.
  pose proof (Z.div_mod k 1000 ltac:(lia)) as Hdm.
  pose proof (Z.mod_pos_bound k 1000 ltac:(lia)) as Hr.
  assert (Hq : (((k # 1000) - inject_Z (k / 1000)) * 1000 + (1 # 2)
                == (2 * (k mod 1000) + 1) # 2)%Q).
  { revert Hdm Hr. generalize (k / 1000) (k mod 1000). intros q r Hdm Hr.
    unfold Qeq, Qminus, Qplus, Qmult, Qopp, inject_Z.
    cbn [Qnum Qden]. lia. }
  rewrite (Qfloor_comp _ _ Hq).
  assert (Hfl : Qfloor ((2 * (k mod 1000) + 1) # 2)
                = (2 * (k mod 1000) + 1) / 2) by reflexivity.
  rewrite Hfl. revert Hdm Hr. generalize (k / 1000) (k mod 1000).
  intros q r Hdm Hr. Z.div_mod_to_equations. lia.
Qed.

(** C1, amended: on a host whose offset from UTC is the one of
    Europe/Berlin, [secondsToSRT] maps an offset of [k] whole
    milliseconds, at most one day, to [HH:MM:SS,mmm] (the decimal
    separator of the locale [de] before the milliseconds) for [k]
    milliseconds, a function of the offset alone.  On these offsets the
    double precision of the source and the exact arithmetic of the model
    give the same count of milliseconds. *)
Theorem secondsToSRT_berlin_host (localTZA k : Z) :
  localTZA = berlinTZA ->
  0 <= k <= 86400000 ->
  secondsToSRT localTZA (k # 1000) = clock_fields (js ",") k.
Proof.
  intros -> Hk.
  pose proof (milliseconds_whole k ltac:(lia)) as Hm.
  unfold milliseconds in Hm.
  unfold secondsToSRT, formatterTime_format, new_Date_1970, de_decimal.
  f_equal. lia.
Qed.

Lemma secondsToSRT_berlin_host_witness :
  0 <= 75256 <= 86400000 /\
  secondsToSRT berlinTZA 75.256 = js "00:01:15,256".
Proof.
  assert (H : 0 <= 75256 <= 86400000) by lia.
  split; [exact H|].
  rewrite (secondsToSRT_berlin_host berlinTZA 75256 eq_refl H).
  reflexivity.
Defined.

(** C2: when the first word is not found in the sentence, the call does
    not return: the span is the only one, its duration is 0, and the
    merge reads the last element of an empty array. *)
Theorem chunkSentence_first_match_fails (sentence : str) (first : Word)
    (rest : list Word) :
  indexOf sentence (word first) 0 < 0 ->
  chunkSentence sentence (first :: rest) = TypeError.
Proof.
  intros H.
  apply (chunkSentence_lone_short_span sentence first rest (init_state first) 0).
  - simpl. apply Z.ltb_lt in H. now rewrite H.
  - reflexivity.
  - apply short_span_init.
Qed.

Lemma chunkSentence_first_match_fails_witness :
  indexOf (js "Goodbye now") (js "Hello") 0 < 0 /\
  chunkSentence (js "Goodbye now")
    [mkWord (js "Hello") 0 0.4; mkWord (js "world") 0.4 0.9] = TypeError.
Proof.
  assert (H : indexOf (js "Goodbye now") (js "Hello") 0 < 0)
    by (vm_compute; reflexivity).
  split; [exact H|].
  exact (chunkSentence_first_match_fails (js "Goodbye now")
           (mkWord (js "Hello") 0 0.4) [mkWord (js "world") 0.4 0.9] H).
Defined.

(** The other case of C2: one span, all words found, shorter than half a
    second. *)
Example chunkSentence_hi :
  chunkSentence (js "Hi") [mkWord (js "Hi") 0 0.3] = TypeError.
Proof. reflexivity. Qed.

(** C3: the merge gives the words of the last span to the previous
    chunk and leaves its end time alone: the chunk ends at 1.8 (the end
    of "over"), its last word "dog" ends at 2.2. *)
Theorem merged_chunk_keeps_end :
  chunkSentence fox_sentence fox_words
  = Ok ([mkChunk fox_sentence 0 1.8], []) /\
  chunkSentence_contributions fox_sentence fox_words = [fox_words] /\
  last fox_words (mkWord [] 0 0) = mkWord (js "dog") 2.0 2.2 /\
  ~ (1.8 == 2.2)%Q.
Proof.
  repeat split; try (vm_compute; reflexivity).
  vm_compute. discriminate.
Qed.

(** C4, as stated, fails: the last span of a sentence runs to the end of
    the sentence, whatever its length.  With a transcript of two words,
    the only chunk is the sentence of 43 code units; nothing was pushed
    before it and the span is not short, so it is not a merge. *)
Lemma chunkText_long_last_chunk :
  chunkText fox_sentence fox_short_words
  = Ok ([mkChunk fox_sentence 0 0.6], []) /\
  len fox_sentence = 43 /\
  loop fox_sentence (init_state (mkWord (js "The") 0 0.3)) 0 fox_short_words
  = ({| chunks := []; chunkStartIndex := 0; chunkEndIndex := 9;
        chunkStartTime := 0; chunkEndTime := 0.6 |}, 2%nat) /\
  short_span {| chunks := []; chunkStartIndex := 0; chunkEndIndex := 9;
                chunkStartTime := 0; chunkEndTime := 0.6 |} = false.
Proof. repeat split; vm_compute; reflexivity. Qed.

(** C4, amended: the chunks are those of the sentences, in order (the
    reduction of [chunkText] gives each sentence its group of chunks);
    each sentence gives at least one chunk, and every chunk of a
    sentence but its last one (the last span, merged or not) has at most
    30 code units. *)
Theorem chunkText_closed_chunks_short (txt : str) (words : list Word)
    (cues : list Chunk) (rem : list Word) :
  chunkText txt words = Ok (cues, rem) ->
  exists groups,
    aligned (sentences txt) words groups rem /\
    cues = List.concat groups /\
    List.length groups = List.length (sentences txt) /\
    Forall (fun g => g <> [] /\
                     Forall (fun c => len (text c) <= 30) (removelast g))
      groups.
Proof.
  intros H. apply chunkText_aligned in H as (groups & Hal & ->).
  exists groups. split; [exact Hal|]. split; [reflexivity|]. split.
  - eapply aligned_length; eauto.
  - eapply aligned_closed_short; eauto.
Qed.

Lemma chunkText_closed_chunks_short_witness :
  exists groups,
    aligned (sentences that_sentence) that_words groups [] /\
    [ mkChunk (js "I really do believe you know") 0 1.8;
      mkChunk (js "that that is true") 1.8 3.1 ] = List.concat groups /\
    List.length groups = List.length (sentences that_sentence) /\
    Forall (fun g => g <> [] /\
                     Forall (fun c => len (text c) <= 30) (removelast g))
      groups.
Proof.
  apply (chunkText_closed_chunks_short that_sentence that_words _ []).
  vm_compute. reflexivity.
Defined.

(** C5: with words sorted by start time, each ending no earlier than it
    starts, every chunk returned starts no later than it ends, and no
    later than the next chunk starts. *)
Theorem chunkText_time_order (txt : str) (words : list Word)
    (cues : list Chunk) (rem : list Word) :
  starts_sorted words ->
  spans_ok words ->
  chunkText txt words = Ok (cues, rem) ->
  Forall (fun c => (start c <= end_ c)%Q) cues /\
  (forall i c d,
      nth_error cues i = Some c -> nth_error cues (S i) = Some d ->
      (start c <= start d)%Q).
Proof.
  intros Hso Hok H. apply chunkText_aligned in H as (groups & Hal & ->).
  apply starts_sorted_strongly in Hso.
  destruct words as [|w0 tl].
  - assert (Hnil : List.concat groups = []).
    { inversion Hal as [|s ss ws cs r gs f Hcs]; subst; [reflexivity|].
      discriminate Hcs. }
    rewrite Hnil. split; [constructor|]. intros [|i]; discriminate.
  - assert (Hlb : Forall (fun w => (w_start w0 <= w_start w)%Q) (w0 :: tl)).
    { inversion Hso; subst. constructor; [apply Qle_refl|assumption]. }
    destruct (aligned_times _ _ _ _ Hal (w_start w0) Hso Hok Hlb)
      as (H1 & H2 & _).
    split; [exact H1|].
    intros i c d Hc Hd.
    exact (StronglySorted_nth_succ chunk_le _ H2 i c d Hc Hd).
Qed.

Lemma chunkText_time_order_witness :
  Forall (fun c => (start c <= end_ c)%Q)
    [ mkChunk (js "Hello world") 0 0.9; mkChunk (js "Goodbye now") 1.0 1.9 ] /\
  (forall i c d,
      nth_error
        [ mkChunk (js "Hello world") 0 0.9; mkChunk (js "Goodbye now") 1.0 1.9 ]
        i = Some c ->
      nth_error
        [ mkChunk (js "Hello world") 0 0.9; mkChunk (js "Goodbye now") 1.0 1.9 ]
        (S i) = Some d ->
      (start c <= start d)%Q).
Proof.
  apply (chunkText_time_order hello_text hello_words _ []).
  - repeat constructor; unfold Qle; simpl; lia.
  - repeat constructor; unfold Qle; simpl; lia.
  - vm_compute. reflexivity.
Defined.

(** X17.  When [chunkSentence] returns, the remaining words are a suffix
    of the words: the words before it were all found, one after the
    other, and the suffix is empty or starts with the first word that was
    not found at or after the cursor. *)
Theorem chunkSentence_remainder (sentence : str) (words : list Word)
    (cs : list Chunk) (rem : list Word) :
  chunkSentence sentence words = Ok (cs, rem) ->
  exists first consumed,
    hd_error words = Some first /\
    words = consumed ++ rem /\
    rem = skipn (List.length consumed) words /\
    all_found sentence (init_state first) consumed /\
    match rem with
    | [] => True
    | w :: _ =>
        indexOf sentence (word w)
          (chunkEndIndex (run sentence (init_state first) consumed)) < 0
    end.
Proof.
  intros H.
  apply chunkSentence_Ok in H as (first & consumed & Hhd & Hw & Hf & Hs & _).
  exists first, consumed. split; [exact Hhd|]. split; [exact Hw|].
  split; [|split; [exact Hf | exact Hs]].
  rewrite Hw, skipn_app, skipn_all, Nat.sub_diag. reflexivity.
Qed.

Lemma chunkSentence_remainder_witness :
  exists first consumed,
    hd_error hello_words = Some first /\
    hello_words = consumed ++ skipn 2 hello_words /\
    skipn 2 hello_words = skipn (List.length consumed) hello_words /\
    all_found (js "Hello world") (init_state first) consumed /\
    match skipn 2 hello_words with
    | [] => True
    | w :: _ =>
        indexOf (js "Hello world") (word w)
          (chunkEndIndex (run (js "Hello world") (init_state first) consumed))
        < 0
    end.
Proof.
  apply (chunkSentence_remainder (js "Hello world") hello_words
           [mkChunk (js "Hello world") 0 0.9]).
  vm_compute. reflexivity.
Defined.

(** C6: when the first word is not found, the loop does stop at once
    ([i] is 0, so [words.slice(i)] would be all the words, the unmatched
    one first), but the call throws before it returns them; the same
    when the second word is not found and the first one lasts less than
    half a second. *)
Theorem remainder_lost_by_throw :
  loop (js "Goodbye now") (init_state (mkWord (js "Hello") 0 0.4)) 0
    [mkWord (js "Hello") 0 0.4; mkWord (js "world") 0.4 0.9]
  = (init_state (mkWord (js "Hello") 0 0.4), 0%nat) /\
  chunkSentence (js "Goodbye now")
    [mkWord (js "Hello") 0 0.4; mkWord (js "world") 0.4 0.9] = TypeError /\
  snd (loop (js "Hi there") (init_state (mkWord (js "Hi") 0 0.25)) 0
         [mkWord (js "Hi") 0 0.25; mkWord (js "you") 0.25 0.75])
  = 1%nat /\
  chunkSentence (js "Hi there")
    [mkWord (js "Hi") 0 0.25; mkWord (js "you") 0.25 0.75] = TypeError.
Proof. repeat split; vm_compute; reflexivity. Qed.

(** The cursor left at the start of the word that opens a chunk (see
    C8) can lose text: with three words of 20 code units whose texts,
    one after the other, are the narration text, the second word opens
    a chunk and the third closes it before anything was added to it;
    the chunk has an empty text and the text of the second word is in
    no chunk. *)
Lemma chunkText_loses_word :
  abc_text <> [] /\
  starts_sorted abc_words /\
  spans_ok abc_words /\
  joined_words abc_words = abc_text /\
  chunkText abc_text abc_words
  = Ok ([ mkChunk (js "aaaaaaaaaaaaaaaaaaaa") 0 1;
          mkChunk (js "") 1 2;
          mkChunk (js "cccccccccccccccccccc") 2 3 ], []) /\
  strip_space
    (joined_text [ mkChunk (js "aaaaaaaaaaaaaaaaaaaa") 0 1;
                   mkChunk (js "") 1 2;
                   mkChunk (js "cccccccccccccccccccc") 2 3 ])
  <> strip_space abc_text.
Proof.
  split; [discriminate|].
  split; [repeat constructor; unfold Qle; simpl; lia|].
  split; [repeat constructor; unfold Qle; simpl; lia|].
  split; [reflexivity|].
  split; [vm_compute; reflexivity|].
  vm_compute. discriminate.
Qed.

(** The delimiters of the split are in no chunk: here the words, white
    space apart, are the narration text, the second one is not found in
    the sentence (it holds the final dot) and is left over, and the only
    chunk is the sentence without the dot. *)
Example chunkText_drops_delimiter :
  strip_space (joined_words [mkWord (js "Hello") 0 0.5;
                             mkWord (js "world.") 0.5 0.9])
  = strip_space (js "Hello world.") /\
  chunkText (js "Hello world.")
    [mkWord (js "Hello") 0 0.5; mkWord (js "world.") 0.5 0.9]
  = Ok ([mkChunk (js "Hello world") 0 0.5], [mkWord (js "world.") 0.5 0.9]).
Proof. split; vm_compute; reflexivity. Qed.

(** X18.  When no sentence has more than 30 code units and
    [chunkText] returns, the texts of the chunks are the sentences, in
    order. *)
Theorem chunkText_small_sentences (txt : str) (words : list Word)
    (cues : list Chunk) (rem : list Word) :
  Forall (fun s => len s <= 30) (sentences txt) ->
  chunkText txt words = Ok (cues, rem) ->
  map text cues = sentences txt.
Proof.
  intros Hlen H. apply chunkText_aligned in H as (groups & Hal & ->).
  eapply aligned_small; eauto.
Qed.

Lemma chunkText_small_sentences_witness :
  map text [ mkChunk (js "Hello world") 0 0.9;
             mkChunk (js "Goodbye now") 1.0 1.9 ]
  = sentences hello_text.
Proof.
  apply (chunkText_small_sentences hello_text hello_words _ []).
  - repeat constructor; vm_compute; discriminate.
  - vm_compute. reflexivity.
Defined.

(** C8: after the word that opens a chunk the cursor is still at the
    start of that word.  The first "that" (word 6) opens a chunk at
    index 29; the second "that" (word 7) is searched from 29 and bound
    to 29 too, and no word is bound to the occurrence at index 34. *)
Theorem bindings_share_occurrence :
  chunkSentence_bindings that_sentence that_words
  = [0; 2; 9; 12; 20; 24; 29; 29; 39; 42] /\
  nth 6 (chunkSentence_bindings that_sentence that_words) (-1)
  = nth 7 (chunkSentence_bindings that_sentence that_words) (-1) /\
  slice that_sentence 29 33 = js "that" /\
  slice that_sentence 34 38 = js "that" /\
  ~ In 34 (chunkSentence_bindings that_sentence that_words).
Proof.
  repeat split; try (vm_compute; reflexivity).
  vm_compute. intros H.
  repeat (destruct H as [H|H]; [discriminate H|]). exact H.
Qed.

(** C9: the scenario of the specification. *)
Theorem chunkText_hello :
  chunkText hello_text hello_words
  = Ok ([ mkChunk (js "Hello world") 0 0.9;
          mkChunk (js "Goodbye now") 1.0 1.9 ], []).
Proof. vm_compute. reflexivity. Qed.

(** C10: when the last span is short and a chunk was pushed before, the
    call returns the chunks pushed by the loop, the last one with the
    rest of the sentence appended to its text after a space; its times
    and the chunks before it are those of the loop. *)
Theorem merge_changes_text_only (sentence : str) (first : Word)
    (rest : list Word) (st : LoopState) (i : nat)
    (before : list Chunk) (prev : Chunk) :
  loop sentence (init_state first) 0 (first :: rest) = (st, i) ->
  short_span st = true ->
  chunks st = before ++ [prev] ->
  chunkSentence sentence (first :: rest)
  = Ok (before ++
        [ {| text := text prev ++ js " " ++
                     slice_from sentence (chunkStartIndex st);
             start := start prev;
             end_ := end_ prev |} ],
        skipn i (first :: rest)).
Proof.
  intros Hl Hs Hc. unfold chunkSentence. rewrite Hl.
  unfold finish, append_to_last. rewrite Hs, Hc, rev_app_distr. simpl.
  now rewrite rev_involutive.
Qed.

Lemma merge_changes_text_only_witness :
  chunkSentence fox_sentence fox_words
  = Ok ([] ++
        [ {| text := js "The quick brown fox jumps over" ++ js " " ++
                     slice_from fox_sentence 31;
             start := 0;
             end_ := 1.8 |} ],
        skipn 9 fox_words).
Proof.
  exact (merge_changes_text_only fox_sentence
           (mkWord (js "The") 0 0.3) (tl fox_words)
           {| chunks := [mkChunk (js "The quick brown fox jumps over") 0 1.8];
              chunkStartIndex := 31; chunkEndIndex := 43;
              chunkStartTime := 1.8; chunkEndTime := 2.2 |}
           9 [] (mkChunk (js "The quick brown fox jumps over") 0 1.8)
           eq_refl eq_refl eq_refl).
Defined.


(** * Further properties of the code *)

(** ** The sentences of a text *)

Lemma delim_not_space (c : ascii) : is_delim c = true -> is_space c = false.
Proof.
  unfold is_delim, is_space. generalize (N_of_ascii c). intros n H.
  repeat (apply orb_true_iff in H; destruct H as [H|H]);
    apply N.eqb_eq in H; subst n; reflexivity.
Qed.

Lemma drop_space_split (s : str) :
  exists a, s = a ++ drop_space s /\ all_space a.
Proof.
  induction s as [|c s (a & Ha & Hs)]; simpl.
  - exists []. split; [reflexivity | constructor].
  - destruct (is_space c) eqn:E.
    + exists (c :: a). simpl. split; [now f_equal | now constructor].
    + exists []. split; [reflexivity | constructor].
Qed.

Lemma drop_space_nil (s : str) : drop_space s = [] <-> all_space s.
Proof.
  induction s as [|c s IH]; simpl.
  - split; [constructor | reflexivity].
  - destruct (is_space c) eqn:E.
    + rewrite IH. split; [now constructor | now inversion 1].
    + split; [discriminate|]. inversion 1; congruence.
Qed.

Lemma all_space_rev (s : str) : all_space (rev s) <-> all_space s.
Proof.
  unfold all_space. rewrite !Forall_forall.
  split; intros H c Hc; apply H; [now apply in_rev in Hc | now apply in_rev].
Qed.

Lemma trim_nil (s : str) : trim s = [] <-> all_space s.
Proof.
  unfold trim. split.
  - intros H. apply (f_equal (@rev _)) in H. rewrite rev_involutive in H.
    simpl in H. apply (proj1 (drop_space_nil _)) in H.
    apply (proj1 (all_space_rev _)) in H.
    destruct (drop_space_split s) as (a & Ha & Hs). rewrite Ha.
    apply Forall_app; split; assumption.
  - intros H. apply drop_space_nil in H. rewrite H. reflexivity.
Qed.

Lemma not_all_space (s : str) :
  ~ all_space s -> Exists (fun c => is_space c = false) s.
Proof.
  induction s as [|c s IH]; intros H.
  - destruct H. constructor.
  - destruct (is_space c) eqn:E; [|now left].
    right. apply IH. intros Hs. apply H. now constructor.
Qed.

Lemma match_delimiter_Some (s rest : str) :
  match_delimiter s = Some rest ->
  exists d, s = d ++ rest /\ is_separator d.
Proof.
  unfold match_delimiter.
  destruct (drop_space_split s) as (a & Ha & Hs).
  destruct (drop_space s) as [|c s'] eqn:E; [discriminate|].
  destruct (is_delim c) eqn:Ec; [|discriminate].
  intros [= <-].
  destruct (drop_space_split s') as (b & Hb & Hbs).
  exists (a ++ c :: b). split.
  - rewrite Ha, Hb at 1. rewrite <- app_assoc. reflexivity.
  - exists a, c, b. auto.
Qed.

Lemma match_delimiter_None (c : ascii) (s : str) :
  match_delimiter (c :: s) = None -> is_delim c = false.
Proof.
  unfold match_delimiter. simpl.
  destruct (is_delim c) eqn:Ec; [|reflexivity].
  rewrite (delim_not_space c Ec), Ec. discriminate.
Qed.

(** The pieces are made of code units of the text. *)
Lemma split_loop_Forall (P : ascii -> Prop) :
  forall fuel piece s,
    Forall P piece -> Forall P s ->
    Forall (Forall P) (split_loop fuel piece s).
Proof.
  induction fuel as [|fuel IH]; intros piece s Hp Hs; simpl; [constructor|].
  destruct s as [|c s']; [repeat constructor; now apply Forall_rev|].
  destruct (match_delimiter (c :: s')) as [rest|] eqn:E.
  - apply match_delimiter_Some in E as (d & Hd & _).
    rewrite Hd in Hs. apply Forall_app in Hs as [_ Hs].
    constructor; [now apply Forall_rev | apply IH; [constructor | exact Hs]].
  - inversion Hs; subst. apply IH; [now constructor | assumption].
Qed.

(** No piece holds a delimiter. *)
Lemma split_loop_no_delim :
  forall fuel piece s,
    Forall (fun c => is_delim c = false) piece ->
    Forall (Forall (fun c => is_delim c = false)) (split_loop fuel piece s).
Proof.
  induction fuel as [|fuel IH]; intros piece s Hp; simpl; [constructor|].
  destruct s as [|c s']; [repeat constructor; now apply Forall_rev|].
  destruct (match_delimiter (c :: s')) as [rest|] eqn:E.
  - constructor; [now apply Forall_rev | apply IH; constructor].
  - apply match_delimiter_None in E. apply IH. now constructor.
Qed.

Lemma split_loop_rebuild :
  forall fuel piece s,
    (List.length s < fuel)%nat ->
    exists seps,
      List.length (split_loop fuel piece s) = S (List.length seps) /\
      Forall is_separator seps /\
      rebuild (split_loop fuel piece s) seps = rev piece ++ s.
Proof.
  induction fuel as [|fuel IH]; intros piece s Hf; [lia|]. simpl.
  destruct s as [|c s'].
  - exists []. simpl. repeat split; constructor.
  - destruct (match_delimiter (c :: s')) as [rest|] eqn:E.
    + pose proof (match_delimiter_shorter _ _ E) as Hl.
      apply match_delimiter_Some in E as (d & Hd & Hsep).
      destruct (IH [] rest) as (seps & H1 & H2 & H3); [simpl in *; lia|].
      exists (d :: seps). simpl. split; [now rewrite H1|].
      split; [now constructor|]. rewrite H3, Hd. reflexivity.
    + destruct (IH (c :: piece) s') as (seps & H1 & H2 & H3);
        [simpl in *; lia|].
      exists seps. split; [exact H1|]. split; [exact H2|].
      destruct (split_loop fuel (c :: piece) s') as [|p ps] eqn:Ep;
        [discriminate|].
      rewrite H3. simpl. now rewrite <- app_assoc.
Qed.

Lemma str_eqb_true (a b : str) : str_eqb a b = true <-> a = b.
Proof.
  unfold str_eqb. destruct (list_eq_dec ascii_dec a b); split;
    auto; discriminate.
Qed.

Lemma rebuild_Forall (P : ascii -> Prop) :
  forall pieces seps,
    Forall (Forall P) pieces -> Forall (Forall P) seps ->
    Forall P (rebuild pieces seps).
Proof.
  induction pieces as [|p ps IH]; intros seps Hp Hs; simpl.
  - destruct seps; constructor.
  - inversion Hp; subst. destruct seps as [|d ds].
    + simpl. apply Forall_app; split; [assumption|].
      now apply Forall_concat.
    + inversion Hs; subst. repeat (apply Forall_app; split; auto).
Qed.

Lemma separator_chars (d : str) :
  is_separator d ->
  Forall (fun c => is_space c = true \/ is_delim c = true) d.
Proof.
  intros (a & c & b & -> & Ha & Hc & Hb).
  apply Forall_app; split; [|constructor; [now right|]];
    (eapply Forall_impl; [|eassumption]); simpl; auto.
Qed.

Lemma sentences_no_delim (txt : str) :
  Forall (Forall (fun c => is_delim c = false)) (sentences txt).
Proof.
  unfold sentences. apply Forall_forall. intros s Hs.
  apply filter_In in Hs as [Hin _].
  pose proof (split_loop_no_delim (S (List.length txt)) [] txt
                (Forall_nil _)) as H.
  rewrite Forall_forall in H. now apply H.
Qed.

(** X1.  A sentence holds none of the delimiters [.], [!], [?], and it
    holds a code unit that is not white space. *)
Theorem sentences_clean (txt : str) :
  Forall (fun s => Forall (fun c => is_delim c = false) s /\
                   Exists (fun c => is_space c = false) s)
    (sentences txt).
Proof.
  unfold sentences. apply Forall_forall. intros s Hs.
  apply filter_In in Hs as [Hin Hf]. split.
  - pose proof (split_loop_no_delim (S (List.length txt)) [] txt
                  (Forall_nil _)) as H.
    rewrite Forall_forall in H. now apply H.
  - apply not_all_space. intros Hsp. apply trim_nil in Hsp.
    apply negb_true_iff in Hf.
    assert (Ht : str_eqb (trim s) [] = true) by now apply str_eqb_true.
    congruence.
Qed.

(** X2.  The split loses nothing but separators: the pieces, with a
    match of the regular expression (white space, one delimiter, white
    space) after each one but the last, are the text; the pieces hold
    no delimiter. *)
Theorem split_rebuild (txt : str) :
  exists seps,
    List.length (split txt) = S (List.length seps) /\
    Forall is_separator seps /\
    rebuild (split txt) seps = txt /\
    Forall (Forall (fun c => is_delim c = false)) (split txt).
Proof.
  destruct (split_loop_rebuild (S (List.length txt)) [] txt) as
    (seps & H1 & H2 & H3); [lia|].
  exists seps. repeat split; auto.
  apply split_loop_no_delim. constructor.
Qed.

(** X3.  A text has no sentence exactly when it is made of white space
    and delimiters only (the empty text included). *)
Theorem no_sentence_iff (txt : str) :
  sentences txt = [] <->
  Forall (fun c => is_space c = true \/ is_delim c = true) txt.
Proof.
  split.
  - intros H.
    destruct (split_loop_rebuild (S (List.length txt)) [] txt) as
      (seps & _ & Hsep & Hre); [lia|].
    simpl rev in Hre. simpl app in Hre. rewrite <- Hre.
    apply rebuild_Forall.
    + apply Forall_forall. intros p Hp.
      assert (Hb : all_space p).
      { apply trim_nil.
        destruct (str_eqb (trim p) []) eqn:E; [now apply str_eqb_true|].
        assert (Hin : In p (sentences txt)).
        { unfold sentences. apply filter_In. split; [exact Hp|].
          now rewrite E. }
        rewrite H in Hin. destruct Hin. }
      eapply Forall_impl; [|exact Hb]. simpl; auto.
    + eapply Forall_impl; [|exact Hsep]. apply separator_chars.
  - intros H. unfold sentences.
    pose proof (split_loop_Forall _ (S (List.length txt)) [] txt
                  (Forall_nil _) H) as Hall.
    pose proof (split_loop_no_delim (S (List.length txt)) [] txt
                  (Forall_nil _)) as Hnd.
    fold (split txt) in Hall, Hnd.
    induction (split txt) as [|p ps IH]; [reflexivity|].
    inversion Hall as [|? ? Hp Hps]; inversion Hnd as [|? ? Hq Hqs]; subst.
    simpl.
    assert (Hb : all_space p).
    { unfold all_space. rewrite Forall_forall in *. intros c Hc.
      destruct (Hp c Hc) as [Hsp|Hde]; [exact Hsp|].
      rewrite (Hq c Hc) in Hde. discriminate. }
    apply trim_nil in Hb. rewrite Hb. simpl. now apply IH.
Qed.

(** ** Words consumed, sentence by sentence *)

(** A call that returns consumed at least one word. *)
Lemma chunkSentence_consumes (sentence : str) (words : list Word)
    (cs : list Chunk) (rem : list Word) :
  chunkSentence sentence words = Ok (cs, rem) ->
  exists consumed, words = consumed ++ rem /\ consumed <> [].
Proof.
  intros H.
  apply chunkSentence_Ok in H as (first & consumed & _ & Hw & _ & _ & Hfin).
  exists consumed. split; [exact Hw|]. intros ->. simpl in Hfin.
  unfold finish in Hfin. rewrite short_span_init in Hfin. discriminate.
Qed.

Lemma aligned_budget :
  forall ss ws groups final,
    aligned ss ws groups final ->
    exists consumed,
      ws = consumed ++ final /\
      (List.length ss <= List.length consumed)%nat.
Proof.
  induction 1 as [ws | s ss ws cs remaining groups final Hcs Hal IH].
  - exists []. split; [reflexivity | simpl; lia].
  - destruct IH as (c2 & -> & Hl).
    apply chunkSentence_consumes in Hcs as (c1 & -> & Hne).
    exists (c1 ++ c2). rewrite <- app_assoc. split; [reflexivity|].
    rewrite length_app. destruct c1; [congruence | simpl; lia].
Qed.

(** X5.  When [chunkText] returns, the remaining words are a suffix of
    the words, and every sentence consumed at least one word: there are
    at least as many consumed words as sentences. *)
Theorem chunkText_word_budget (txt : str) (words : list Word)
    (cues : list Chunk) (rem : list Word) :
  chunkText txt words = Ok (cues, rem) ->
  exists consumed,
    words = consumed ++ rem /\
    (List.length (sentences txt) <= List.length consumed)%nat.
Proof.
  intros H. apply chunkText_aligned in H as (groups & Hal & _).
  eapply aligned_budget; eauto.
Qed.

Lemma chunkText_word_budget_witness :
  exists consumed,
    hello_words = consumed ++ [] /\
    (List.length (sentences hello_text) <= List.length consumed)%nat.
Proof.
  apply (chunkText_word_budget hello_text hello_words
           [ mkChunk (js "Hello world") 0 0.9;
             mkChunk (js "Goodbye now") 1.0 1.9 ] []).
  vm_compute. reflexivity.
Defined.

(** ** When chunkSentence returns *)

Section Returns.

Variable sentence : str.

Lemma not_short_span (st : LoopState) :
  (chunkStartTime st + 0.5 <= chunkEndTime st)%Q -> short_span st = false.
Proof.
  intros H. unfold short_span.
  destruct (chunkEndTime st - chunkStartTime st ?= 0.5)%Q eqn:E;
    try reflexivity.
  apply Qlt_alt in E. exfalso.
  apply (Qplus_lt_l _ _ (chunkStartTime st)) in E.
  unfold Qminus in E. rewrite <- Qplus_assoc in E.
  rewrite (Qplus_comm (- chunkStartTime st)), Qplus_opp_r, Qplus_0_r in E.
  rewrite (Qplus_comm 0.5) in E.
  apply (Qlt_not_le _ _ E). exact H.
Qed.

(** Once a chunk is pushed or the span is long enough, it stays so when
    the next words end no earlier. *)
Lemma run_long_enough (t : Q) :
  forall consumed st,
    chunks st <> [] \/
    (chunkStartTime st + 0.5 <= t /\ t <= chunkEndTime st)%Q ->
    Forall (fun w => (t <= w_end w)%Q) consumed ->
    let st' := run sentence st consumed in
    chunks st' <> [] \/ (chunkStartTime st' + 0.5 <= chunkEndTime st')%Q.
Proof.
  induction consumed as [|w consumed IH]; intros st Hst Hw; simpl.
  - destruct Hst as [H|[H1 H2]]; [now left | right].
    eapply Qle_trans; eauto.
  - inversion Hw as [|? ? Hw1 Hw2]; subst. apply IH; [|assumption].
    unfold step.
    destruct (indexOf sentence (word w) (chunkEndIndex st) + len (word w)
              - chunkStartIndex st >? 30); simpl.
    + left. intros E. now apply app_eq_nil in E as [_ E].
    + destruct Hst as [H|[H1 H2]]; [now left | right]. split; assumption.
Qed.

(** X6.  [chunkSentence] returns when the first word is found in the
    sentence, lasts at least one second, and no later word ends before
    it does, the times lying between 0 and 1000000 seconds.  (The
    source tests the duration in double precision; with such times a
    second is on the same side of the half second there as here.) *)
Theorem chunkSentence_returns (first : Word) (rest : list Word) :
  0 <= indexOf sentence (word first) 0 ->
  (0 <= w_start first)%Q ->
  (w_start first + 1 <= w_end first)%Q ->
  Forall (fun w => (w_end first <= w_end w <= 1000000)%Q) (first :: rest) ->
  exists cs rem, chunkSentence sentence (first :: rest) = Ok (cs, rem).
Proof.
  intros Hfound _ Hsec Hall.
  assert (Hlong : (w_start first + 0.5 <= w_end first)%Q).
  { eapply Qle_trans; [|exact Hsec]. apply Qplus_le_r.
    unfold Qle; simpl; lia. }
  assert (Hrest : Forall (fun w => (w_end first <= w_end w)%Q) rest).
  { inversion Hall as [|? ? _ Htl]; subst.
    eapply Forall_impl; [|exact Htl]. simpl. now intros w [Hw _]. }
  clear Hsec Hall. unfold chunkSentence.
  destruct (loop_run sentence (first :: rest) (init_state first) 0)
    as (consumed & rem & Hw & Hl & Hf & Hs).
  rewrite Hl.
  assert (Hne : consumed <> []).
  { intros ->. simpl in Hw. subst rem. simpl in Hs. lia. }
  destruct consumed as [|w consumed]; [congruence|].
  injection Hw as <- Hw. subst rest. apply Forall_app in Hrest as [Hrest _].
  set (st' := run sentence (init_state first) (first :: consumed)) in *.
  assert (Hok : chunks st' <> [] \/
                (chunkStartTime st' + 0.5 <= chunkEndTime st')%Q).
  { unfold st'. simpl run.
    apply (run_long_enough (w_end first)); [|exact Hrest].
    unfold step. destruct (_ >? 30); simpl.
    - left. discriminate.
    - right. split; [exact Hlong | apply Qle_refl]. }
  unfold finish, append_to_last.
  destruct (short_span st') eqn:Eshort.
  - destruct Hok as [Hc|Hc]; [|apply not_short_span in Hc; congruence].
    destruct (rev (chunks st')) as [|last before] eqn:Erev.
    + apply (f_equal (@rev _)) in Erev. rewrite rev_involutive in Erev.
      simpl in Erev. congruence.
    + eauto.
  - eauto.
Qed.

End Returns.

Lemma chunkSentence_returns_witness :
  exists cs rem,
    chunkSentence (js "Hello world") hello_words_long = Ok (cs, rem).
Proof.
  apply (chunkSentence_returns (js "Hello world")
           (mkWord (js "Hello") 0 1.0) [mkWord (js "world") 1.0 1.5]).
  - vm_compute. discriminate.
  - unfold Qle; simpl; lia.
  - unfold Qle; simpl; lia.
  - repeat constructor; unfold Qle; simpl; lia.
Defined.

(** ** Where the words are bound *)

Section Bindings.

Variable sentence : str.

Lemma clamp_id (p : Z) : 0 <= p <= len sentence -> clamp sentence p = p.
Proof. unfold clamp. lia. Qed.

Lemma step_cursor (st : LoopState) (w : Word) :
  0 <= chunkEndIndex st <= len sentence ->
  0 <= indexOf sentence (word w) (chunkEndIndex st) ->
  let index := indexOf sentence (word w) (chunkEndIndex st) in
  index <= chunkEndIndex (step sentence st index w) <= len sentence.
Proof.
  intros Hc Hi. apply indexOf_found in Hi as (_ & Hb & _).
  pose proof (len_nonneg (word w)).
  simpl. unfold step. destruct (_ >? 30); simpl; lia.
Qed.

Lemma bindings_from_cursor :
  forall ws st,
    0 <= chunkEndIndex st <= len sentence ->
    StronglySorted Z.le (bindings sentence st ws) /\
    Forall (fun i => chunkEndIndex st <= i) (bindings sentence st ws).
Proof.
  induction ws as [|w ws IH]; intros st Hc; simpl.
  - split; constructor.
  - destruct (indexOf sentence (word w) (chunkEndIndex st) <? 0) eqn:E.
    + split; constructor.
    + apply Z.ltb_ge in E.
      pose proof (step_cursor st w Hc E) as Hstep. simpl in Hstep.
      apply indexOf_found in E as Hf. destruct Hf as (Hcl & _ & _).
      rewrite clamp_id in Hcl by exact Hc.
      destruct (IH (step sentence st
                      (indexOf sentence (word w) (chunkEndIndex st)) w))
        as [H1 H2]; [lia|].
      assert (H3 : Forall (fun i => indexOf sentence (word w) (chunkEndIndex st)
                                    <= i)
                     (bindings sentence
                        (step sentence st
                           (indexOf sentence (word w) (chunkEndIndex st)) w)
                        ws)).
      { eapply Forall_impl; [|exact H2]. simpl; intros; lia. }
      split; constructor; auto.
      eapply Forall_impl; [|exact H3]. simpl; intros; lia.
Qed.

Lemma bindings_found :
  forall ws st,
    Forall2 (fun w i =>
               0 <= i /\ i + len (word w) <= len sentence /\
               slice sentence i (i + len (word w)) = word w)
      (firstn (List.length (bindings sentence st ws)) ws)
      (bindings sentence st ws).
Proof.
  induction ws as [|w ws IH]; intros st; simpl; [constructor|].
  destruct (indexOf sentence (word w) (chunkEndIndex st) <? 0) eqn:E;
    simpl; [constructor|].
  apply Z.ltb_ge in E. constructor; [|apply IH].
  apply indexOf_found in E as Hf. destruct Hf as (_ & Hb & Hs). auto.
Qed.

Lemma bindings_length_le :
  forall ws st,
    (List.length (bindings sentence st ws) <= List.length ws)%nat.
Proof.
  induction ws as [|w ws IH]; intros st; simpl; [lia|].
  destruct (_ <? 0); simpl; [lia|].
  specialize (IH (step sentence st
                    (indexOf sentence (word w) (chunkEndIndex st)) w)). lia.
Qed.

End Bindings.

(** X8.  The positions that the consumed words are bound to never go
    back: each word is bound at or after the position of the word before
    it. *)
Theorem bindings_sorted (sentence : str) (words : list Word) :
  StronglySorted Z.le (chunkSentence_bindings sentence words).
Proof.
  unfold chunkSentence_bindings. destruct words as [|first tl]; [constructor|].
  apply bindings_from_cursor. simpl. pose proof (len_nonneg sentence). lia.
Qed.

(** X9.  Each consumed word is bound to a position of the sentence where
    its text occurs, inside the sentence; there is one position per
    consumed word. *)
Theorem bindings_are_occurrences (sentence : str) (words : list Word) :
  Forall2 (fun w i =>
             0 <= i /\ i + len (word w) <= len sentence /\
             slice sentence i (i + len (word w)) = word w)
    (firstn (List.length (chunkSentence_bindings sentence words)) words)
    (chunkSentence_bindings sentence words) /\
  (forall cs rem,
      chunkSentence sentence words = Ok (cs, rem) ->
      (List.length (chunkSentence_bindings sentence words)
       + List.length rem = List.length words)%nat).
Proof.
  unfold chunkSentence_bindings, chunkSentence.
  destruct words as [|first tl]; [split; [constructor | discriminate]|].
  split; [apply bindings_found|].
  intros cs rem.
  pose proof (bindings_length sentence (first :: tl) (init_state first) 0) as Hl.
  pose proof (bindings_length_le sentence (first :: tl) (init_state first))
    as Hle.
  remember (List.length (bindings sentence (init_state first) (first :: tl)))
    as n eqn:Hn. clear Hn.
  destruct (loop sentence (init_state first) 0 (first :: tl)) as [st i].
  cbn [snd] in Hl. rewrite Nat.add_0_l in Hl. subst i.
  destruct (finish sentence st); [|discriminate].
  intros [= _ <-]. rewrite length_skipn. lia.
Qed.

(** ** The times of a chunk and the words given to it *)

Section Spans.

Variable sentence : str.

Lemma open_span_snoc (st : LoopState) (index : Z) (w : Word) (l : list Word) :
  open_span st l ->
  (l = [] -> chunkStartTime st = w_start w) ->
  open_span (extend_chunk st index w) (l ++ [w]).
Proof.
  unfold open_span. destruct l as [|v l]; simpl.
  - intros _ H. split; [now apply H | reflexivity].
  - intros [H1 _] _. split; [exact H1|].
    change (match l ++ [w] with [] => v | _ :: _ => last (l ++ [w]) v end)
      with (last (v :: l ++ [w]) v).
    rewrite app_comm_cons, last_last. reflexivity.
Qed.

Lemma contributions_spans :
  forall ws st i closed open,
    Forall2 spans_words (chunks st) closed ->
    open_span st open ->
    (open = [] ->
     match ws with [] => True | w :: _ => chunkStartTime st = w_start w end) ->
    let r := contributions sentence st closed open ws in
    let st' := fst (loop sentence st i ws) in
    Forall2 spans_words (chunks st') (fst r) /\ open_span st' (snd r).
Proof.
  induction ws as [|w ws IH]; intros st i closed open Hc Ho Hhd; simpl.
  - auto.
  - destruct (indexOf sentence (word w) (chunkEndIndex st) <? 0); simpl;
      [auto|].
    unfold step.
    destruct (indexOf sentence (word w) (chunkEndIndex st) + len (word w)
              - chunkStartIndex st >? 30).
    + apply IH.
      * simpl. apply Forall2_app; [exact Hc|].
        constructor; [|constructor].
        unfold spans_words, open_span in *. destruct open; simpl; auto.
      * simpl. auto.
      * discriminate.
    + apply IH.
      * exact Hc.
      * apply open_span_snoc; auto.
      * intros E. now apply app_eq_nil in E as [_ E].
Qed.

End Spans.

(** X10.  Every chunk of a sentence but the last one starts when the
    first of its words starts and ends when the last of its words ends;
    so does the last chunk when it is not a merge (the last span lasts
    half a second or more). *)
Theorem chunks_span_their_words (sentence : str) (words : list Word)
    (cs : list Chunk) (rem : list Word) :
  chunkSentence sentence words = Ok (cs, rem) ->
  Forall2 spans_words (removelast cs)
    (removelast (chunkSentence_contributions sentence words)) /\
  (forall first,
      hd_error words = Some first ->
      short_span (fst (loop sentence (init_state first) 0 words)) = false ->
      Forall2 spans_words cs (chunkSentence_contributions sentence words)).
Proof.
  unfold chunkSentence, chunkSentence_contributions.
  destruct words as [|first tl]; [discriminate|].
  pose proof (contributions_spans sentence (first :: tl) (init_state first) 0
                [] [] (Forall2_nil _) I (fun _ => eq_refl)) as [H1 H2].
  pose proof (contributions_loop sentence (first :: tl) (init_state first) 0
                [] []) as (_ & Hlen & _).
  destruct (loop sentence (init_state first) 0 (first :: tl)) as [st i]
    eqn:Eloop.
  destruct (contributions sentence (init_state first) [] [] (first :: tl))
    as [closed open].
  cbn [fst snd] in *. simpl in Hlen. rewrite Nat.add_0_r in Hlen.
  unfold finish, finish_contributions, append_to_last.
  destruct (short_span st) eqn:Eshort.
  - destruct (rev (chunks st)) as [|last before] eqn:E; [discriminate|].
    apply rev_eq_cons in E. intros [= <- _].
    rewrite E in H1, Hlen.
    destruct (rev closed) as [|lastw beforew] eqn:Ew.
    + apply (f_equal (@List.length _)) in Ew. rewrite length_rev in Ew.
      rewrite length_app in Hlen. simpl in *. lia.
    + apply rev_eq_cons in Ew. subst closed.
      rewrite !removelast_last. split.
      * apply Forall2_app_inv_l in H1 as (l1 & l2 & Ha & Hb & Heq).
        inversion Hb as [|? y ? l2' _ Hnil]; subst. inversion Hnil; subst.
        apply app_inj_tail in Heq as [-> _]. exact Ha.
      * intros f [= <-] Hs. rewrite Eloop in Hs. simpl in Hs. congruence.
  - intros [= <- _]. rewrite !removelast_last. split; [exact H1|].
    intros f [= <-] _. apply Forall2_app; [exact H1|].
    constructor; [|constructor].
    unfold spans_words, open_span in *. destruct open; simpl; auto.
Qed.

Lemma chunks_span_their_words_witness :
  Forall2 spans_words
    (removelast [ mkChunk (js "I really do believe you know") 0 1.8;
                  mkChunk (js "that that is true") 1.8 3.1 ])
    (removelast (chunkSentence_contributions that_sentence that_words)) /\
  (forall first,
      hd_error that_words = Some first ->
      short_span (fst (loop that_sentence (init_state first) 0 that_words))
      = false ->
      Forall2 spans_words
        [ mkChunk (js "I really do believe you know") 0 1.8;
          mkChunk (js "that that is true") 1.8 3.1 ]
        (chunkSentence_contributions that_sentence that_words)).
Proof.
  apply (chunks_span_their_words that_sentence that_words _ []).
  vm_compute. reflexivity.
Defined.

(** ** The code units of the chunks *)

Section Texts.

Variable P : ascii -> Prop.
Variable sentence : str.
Hypothesis P_sentence : Forall P sentence.

Lemma slice_Forall (a b : Z) : Forall P (slice sentence a b).
Proof.
  unfold slice.
  set (n := Z.to_nat _). set (m := Z.to_nat _).
  pose proof P_sentence as H.
  rewrite <- (firstn_skipn m sentence) in H. apply Forall_app in H as [_ H].
  rewrite <- (firstn_skipn n (skipn m sentence)) in H.
  now apply Forall_app in H as [H _].
Qed.

Lemma run_texts :
  forall consumed st,
    Forall (fun c => Forall P (text c)) (chunks st) ->
    Forall (fun c => Forall P (text c)) (chunks (run sentence st consumed)).
Proof.
  induction consumed as [|w consumed IH]; intros st H; simpl; [exact H|].
  apply IH. unfold step. destruct (_ >? 30); simpl; [|exact H].
  apply Forall_app; split; [exact H|].
  constructor; [apply slice_Forall | constructor].
Qed.

Lemma chunkSentence_texts (words : list Word) (cs : list Chunk)
    (rem : list Word) :
  P " "%char ->
  chunkSentence sentence words = Ok (cs, rem) ->
  Forall (fun c => Forall P (text c)) cs.
Proof.
  intros Hsp H.
  apply chunkSentence_Ok in H as (first & consumed & _ & _ & _ & _ & Hfin).
  pose proof (run_texts consumed (init_state first) (Forall_nil _)) as Hch.
  unfold finish, append_to_last in Hfin.
  destruct (short_span _).
  - destruct (rev (chunks _)) as [|last before] eqn:E; [discriminate|].
    apply rev_eq_cons in E. rewrite E in Hch.
    apply Forall_app in Hch as [H1 H2]. inversion H2; subst.
    injection Hfin as <-. apply Forall_app; split; [exact H1|].
    constructor; [|constructor]. simpl.
    apply Forall_app; split; [assumption|].
    constructor; [exact Hsp | apply slice_Forall].
  - injection Hfin as <-. apply Forall_app; split; [exact Hch|].
    constructor; [apply slice_Forall | constructor].
Qed.

End Texts.

Lemma aligned_texts (P : ascii -> Prop) :
  P " "%char ->
  forall ss ws groups final,
    aligned ss ws groups final ->
    Forall (Forall P) ss ->
    Forall (fun c => Forall P (text c)) (List.concat groups).
Proof.
  intros Hsp. induction 1 as [ws | s ss ws cs remaining groups final Hcs Hal IH];
    intros Hss; simpl; [constructor|].
  inversion Hss; subst. apply Forall_app; split; [|now apply IH].
  eapply chunkSentence_texts; eauto.
Qed.

(** X11.  No chunk returned by [chunkText] holds one of the delimiters
    [.], [!], [?] in its text. *)
Theorem chunkText_no_delimiter (txt : str) (words : list Word)
    (cues : list Chunk) (rem : list Word) :
  chunkText txt words = Ok (cues, rem) ->
  Forall (fun c => Forall (fun ch => is_delim ch = false) (text c)) cues.
Proof.
  intros H. apply chunkText_aligned in H as (groups & Hal & ->).
  eapply aligned_texts; [reflexivity | exact Hal |].
  apply sentences_no_delim.
Qed.

Lemma chunkText_no_delimiter_witness :
  Forall (fun c => Forall (fun ch => is_delim ch = false) (text c))
    [ mkChunk (js "Hello world") 0 0.9; mkChunk (js "Goodbye now") 1.0 1.9 ].
Proof.
  apply (chunkText_no_delimiter hello_text hello_words _ []).
  vm_compute. reflexivity.
Defined.

(** ** The time codes *)

Lemma digit_cases (n : Z) :
  exists k, (k < 10)%nat /\ digit n = ascii_of_nat (48 + k) /\
            Z.of_nat k = n mod 10.
Proof.
  exists (Z.to_nat (n mod 10)).
  pose proof (Z.mod_pos_bound n 10 ltac:(lia)). repeat split; lia.
Qed.

Lemma digit_is_digit (n : Z) : is_digit (digit n) = true.
Proof.
  destruct (digit_cases n) as (k & Hk & -> & _).
  do 10 (destruct k as [|k]; [reflexivity|]). lia.
Qed.

Lemma digit_value_digit (n : Z) : digit_value (digit n) = n mod 10.
Proof.
  destruct (digit_cases n) as (k & Hk & -> & <-).
  do 10 (destruct k as [|k]; [reflexivity|]). lia.
Qed.

Lemma two_digits_value (x : Z) :
  0 <= x < 100 -> 10 * ((x / 10) mod 10) + x mod 10 = x.
Proof. intros H. Z.div_mod_to_equations. lia. Qed.

Lemma three_digits_value (x : Z) :
  0 <= x < 1000 ->
  100 * ((x / 100) mod 10) + 10 * ((x / 10) mod 10) + x mod 10 = x.
Proof. intros H. Z.div_mod_to_equations. lia. Qed.

Lemma day_fields (t : Z) :
  (t / 3600000 mod 24) * 3600000 + (t / 60000 mod 60) * 60000
  + (t / 1000 mod 60) * 1000 + t mod 1000 = t mod 86400000.
Proof. Z.div_mod_to_equations. lia. Qed.

Lemma parse_clock_fields (sep : ascii) (t : Z) :
  parse_clock (clock_fields [sep] t) = Some (t mod 86400000).
Proof.
  unfold clock_fields, two_digits, three_digits, js, parse_clock.
  cbn [app list_ascii_of_string].
  rewrite !digit_value_digit.
  rewrite !two_digits_value, three_digits_value, day_fields;
    try reflexivity;
    match goal with
    | |- 0 <= ?a mod ?b < _ =>
        pose proof (Z.mod_pos_bound a b ltac:(lia)); lia
    end.
Qed.

(** A time code depends on the count of milliseconds modulo one day
    only. *)
Lemma clock_fields_mod (sep : str) (t : Z) :
  clock_fields sep (t mod 86400000) = clock_fields sep t.
Proof.
  unfold clock_fields.
  assert (H1 : (t mod 86400000) / 3600000 mod 24 = t / 3600000 mod 24)
    by (Z.div_mod_to_equations; lia).
  assert (H2 : (t mod 86400000) / 60000 mod 60 = t / 60000 mod 60)
    by (Z.div_mod_to_equations; lia).
  assert (H3 : (t mod 86400000) / 1000 mod 60 = t / 1000 mod 60)
    by (Z.div_mod_to_equations; lia).
  assert (H4 : (t mod 86400000) mod 1000 = t mod 1000)
    by (Z.div_mod_to_equations; lia).
  now rewrite H1, H2, H3, H4.
Qed.

Lemma secondsToSRT_clock (localTZA : Z) (seconds : Q) :
  secondsToSRT localTZA seconds
  = clock_fields de_decimal (milliseconds seconds + berlinTZA - localTZA).
Proof.
  unfold secondsToSRT, formatterTime_format, new_Date_1970, milliseconds.
  f_equal. lia.
Qed.

(** X12.  For a seconds value between -8000000000000 and
    8000000000000 and a host less than a day from UTC (the time value
    is then inside the range of [Date]; outside it the formatter of the
    source throws), the time code has twelve code units: two digits, a
    colon, two digits, a colon, two digits, a comma, three digits. *)
Theorem secondsToSRT_shape (localTZA : Z) (seconds : Q) :
  (-8000000000000 <= seconds <= 8000000000000)%Q ->
  -86400000 <= localTZA <= 86400000 ->
  exists h1 h2 m1 m2 s1 s2 f1 f2 f3,
    secondsToSRT localTZA seconds
    = [h1; h2; ":"; m1; m2; ":"; s1; s2; ","; f1; f2; f3]%char /\
    forallb is_digit [h1; h2; m1; m2; s1; s2; f1; f2; f3] = true.
Proof.
  intros _ _. rewrite secondsToSRT_clock.
  unfold clock_fields, two_digits, three_digits, de_decimal, js.
  cbn [app list_ascii_of_string].
  do 9 eexists. split; [reflexivity|].
  cbn [forallb]. rewrite !digit_is_digit. reflexivity.
Qed.

Lemma secondsToSRT_shape_witness :
  exists h1 h2 m1 m2 s1 s2 f1 f2 f3,
    secondsToSRT 0 75.256
    = [h1; h2; ":"; m1; m2; ":"; s1; s2; ","; f1; f2; f3]%char /\
    forallb is_digit [h1; h2; m1; m2; s1; s2; f1; f2; f3] = true.
Proof.
  apply (secondsToSRT_shape 0 75.256).
  - split; unfold Qle; simpl; lia.
  - lia.
Defined.

(** X13.  For an offset of [k] whole milliseconds, at most one day, on
    a host at most 14 hours from UTC, the time code read back is the
    time of day, in milliseconds, of [k] shifted by the difference
    between the offset of Europe/Berlin (one hour, around the first of
    January 1970) and the offset of the host: hours wrap around after
    24. *)
Theorem secondsToSRT_read_back (localTZA k : Z) :
  0 <= k <= 86400000 ->
  -50400000 <= localTZA <= 50400000 ->
  parse_clock (secondsToSRT localTZA (k # 1000))
  = Some ((k + berlinTZA - localTZA) mod 86400000).
Proof.
  intros Hk _. rewrite secondsToSRT_clock.
  rewrite milliseconds_whole by lia. apply parse_clock_fields.
Qed.

Lemma secondsToSRT_read_back_witness :
  parse_clock (secondsToSRT 0 75.256) = Some 3675256.
Proof.
  apply (secondsToSRT_read_back 0 75256); lia.
Defined.

(** X14.  For a seconds value of at most one day, two hosts at most 14
    hours from UTC print the same time code exactly when their offsets
    are equal or one day apart. *)
Theorem secondsToSRT_host_zone (tza1 tza2 : Z) (seconds : Q) :
  (0 <= seconds <= 86400)%Q ->
  -50400000 <= tza1 <= 50400000 ->
  -50400000 <= tza2 <= 50400000 ->
  (secondsToSRT tza1 seconds = secondsToSRT tza2 seconds <->
   (tza1 - tza2) mod 86400000 = 0).
Proof.
  intros _ _ _. split.
  - intros H. apply (f_equal parse_clock) in H.
    rewrite !secondsToSRT_clock in H.
    unfold de_decimal, js in H. cbn [list_ascii_of_string] in H.
    rewrite !parse_clock_fields in H. injection H as H.
    revert H. generalize (milliseconds seconds + berlinTZA). intros m H.
    Z.div_mod_to_equations. lia.
  - intros H. rewrite !secondsToSRT_clock.
    rewrite <- (clock_fields_mod _ (milliseconds seconds + berlinTZA - tza1)).
    rewrite <- (clock_fields_mod _ (milliseconds seconds + berlinTZA - tza2)).
    f_equal.
    generalize (milliseconds seconds + berlinTZA). intros m.
    Z.div_mod_to_equations. lia.
Qed.

Lemma secondsToSRT_host_zone_witness :
  secondsToSRT 0 75.256 = secondsToSRT 3600000 75.256 <->
  (0 - 3600000) mod 86400000 = 0.
Proof.
  apply (secondsToSRT_host_zone 0 3600000 75.256).
  - split; unfold Qle; simpl; lia.
  - lia.
  - lia.
Defined.

(** ** The subtitle file *)

Lemma Number_toString_nonempty (n : nat) : Number_toString (S n) <> [].
Proof.
  unfold Number_toString. intros H.
  assert (Hu : Nat.to_uint (S n) = Decimal.Nil).
  { destruct (Nat.to_uint (S n)); simpl in H; try discriminate H.
    reflexivity. }
  apply (f_equal Nat.of_uint) in Hu. rewrite Unsigned.of_to in Hu.
  discriminate Hu.
Qed.

Lemma subtitle_block_nonempty (localTZA : Z) (c : Chunk) (index : nat) :
  subtitle_block localTZA c index <> [].
Proof.
  unfold subtitle_block. rewrite Nat.add_1_r. intros H.
  apply app_eq_nil in H as [H _]. now apply Number_toString_nonempty in H.
Qed.

Lemma join_nil (sep : str) (l : list str) :
  Forall (fun x => x <> []) l -> join sep l = [] -> l = [].
Proof.
  destruct l as [|x [|y l]]; simpl; intros H E; [reflexivity| |];
    inversion H; subst.
  - congruence.
  - apply app_eq_nil in E as [E _]. congruence.
Qed.

Lemma subtitle_blocks_nonempty (localTZA : Z) :
  forall cs index,
    Forall (fun x => x <> []) (subtitle_blocks localTZA index cs).
Proof.
  induction cs as [|c cs IH]; intros index; simpl; constructor; auto.
  apply subtitle_block_nonempty.
Qed.

Lemma aligned_no_chunk :
  forall ss ws groups final,
    aligned ss ws groups final -> List.concat groups = [] -> ss = [].
Proof.
  intros ss ws groups final H. destruct H as [|s ss ws cs r gs f Hcs _];
    [reflexivity|]. simpl. intros E. apply app_eq_nil in E as [E _]. subst cs.
  apply chunkSentence_Ok in Hcs as (f0 & co & _ & _ & _ & _ & Hfin).
  now apply finish_nonempty in Hfin.
Qed.

(** X15.  [generateSubtitleFile] writes an empty file exactly when the
    text has no sentence; it then does so whatever the words are, the
    empty list included. *)
Theorem generateSubtitleFile_empty (localTZA : Z) (txt : str)
    (words : list Word) :
  generateSubtitleFile localTZA txt words = Ok [] <-> sentences txt = [].
Proof.
  unfold generateSubtitleFile. split.
  - destruct (chunkText txt words) as [[cs rem]|] eqn:E; [|discriminate].
    intros [= H]. apply join_nil in H; [|apply subtitle_blocks_nonempty].
    assert (Hcs : cs = []) by (destruct cs; [reflexivity | discriminate]).
    subst cs. apply chunkText_aligned in E as (groups & Hal & Hg).
    eapply aligned_no_chunk; eauto.
  - intros H. unfold chunkText. rewrite H. reflexivity.
Qed.

(** X16.  [generateSubtitleFile] throws, and writes nothing, when there
    are fewer words than sentences; in particular with no word and a
    text that has a sentence. *)
Theorem generateSubtitleFile_throws (localTZA : Z) (txt : str)
    (words : list Word) :
  (List.length words < List.length (sentences txt))%nat ->
  generateSubtitleFile localTZA txt words = TypeError.
Proof.
  intros Hlt. unfold generateSubtitleFile.
  destruct (chunkText txt words) as [[cues rem]|] eqn:E; [|reflexivity].
  apply chunkText_aligned in E as (groups & Hal & _).
  apply aligned_budget in Hal as (consumed & -> & Hl).
  rewrite length_app in Hlt. lia.
Qed.

Lemma generateSubtitleFile_throws_witness :
  (List.length (@nil Word) < List.length (sentences hello_text))%nat /\
  generateSubtitleFile 0 hello_text [] = TypeError.
Proof.
  assert (H : (List.length (@nil Word)
               < List.length (sentences hello_text))%nat)
    by (vm_compute; lia).
  split; [exact H|].
  exact (generateSubtitleFile_throws 0 hello_text [] H).
Defined.

Example generateSubtitleFile_hello :
  generateSubtitleFile berlinTZA hello_text hello_words
  = Ok (js "1" ++ nl ++ js "00:00:00,000 --> 00:00:00,900" ++ nl ++
        js "Hello world" ++ nl ++ nl ++
        js "2" ++ nl ++ js "00:00:01,000 --> 00:00:01,900" ++ nl ++
        js "Goodbye now").
Proof. vm_compute. reflexivity. Qed.

(** ** Edge cases *)

Lemma match_delimiter_no_delim (s : str) :
  Forall (fun c => is_delim c = false) s -> match_delimiter s = None.
Proof.
  intros H. unfold match_delimiter.
  destruct (drop_space_split s) as (a & Ha & _).
  destruct (drop_space s) as [|c s']; [reflexivity|].
  rewrite Ha in H. apply Forall_app in H as [_ H]. inversion H; subst.
  now replace (is_delim c) with false.
Qed.

Lemma split_loop_no_match :
  forall fuel piece s,
    (List.length s < fuel)%nat ->
    Forall (fun c => is_delim c = false) s ->
    split_loop fuel piece s = [rev piece ++ s].
Proof.
  induction fuel as [|fuel IH]; intros piece s Hf Hs; [lia|]. simpl.
  destruct s as [|c s']; [now rewrite app_nil_r|].
  rewrite (match_delimiter_no_delim _ Hs). inversion Hs; subst.
  rewrite IH by (simpl in *; auto; lia). simpl. now rewrite <- app_assoc.
Qed.

(** X4.  A text without delimiter that is not blank is its own only
    sentence, with the white space it starts and ends with: [trim] is
    used to test the pieces, not to change them. *)
Theorem sentences_no_delimiter (txt : str) :
  Forall (fun c => is_delim c = false) txt ->
  Exists (fun c => is_space c = false) txt ->
  sentences txt = [txt].
Proof.
  intros Hd Hs. unfold sentences, split.
  rewrite split_loop_no_match by (auto; lia). simpl.
  destruct (str_eqb (trim txt) []) eqn:E; [|reflexivity].
  apply str_eqb_true, trim_nil in E. exfalso.
  apply Exists_exists in Hs as (c & Hin & Hc).
  unfold all_space in E. rewrite Forall_forall in E.
  rewrite (E c Hin) in Hc. discriminate.
Qed.

Lemma sentences_no_delimiter_witness :
  sentences (js "  Hello world ") = [js "  Hello world "].
Proof.
  apply sentences_no_delimiter.
  - repeat constructor.
  - do 2 right. left. reflexivity.
Defined.

Lemma slice_same (s : str) (a : Z) : slice s a a = [].
Proof. unfold slice. now rewrite Z.sub_diag. Qed.

Section FirstWord.

Variable sentence : str.

Lemma run_chunks_prefix :
  forall consumed st,
    exists more, chunks (run sentence st consumed) = chunks st ++ more.
Proof.
  induction consumed as [|w consumed IH]; intros st; simpl.
  - exists []. now rewrite app_nil_r.
  - destruct (IH (step sentence st
                    (indexOf sentence (word w) (chunkEndIndex st)) w))
      as [more Hm].
    rewrite Hm. unfold step. destruct (_ >? 30); simpl.
    + rewrite <- app_assoc. eauto.
    + eauto.
Qed.

(** X7.  When the first word is found but ends more than 30 code units
    after the start of the sentence, the call returns and its first
    chunk is degenerate: it starts and ends when the first word starts,
    and its text is empty unless it is the only chunk (the last span
    was merged into it). *)
Theorem first_word_too_far (first : Word) (rest : list Word) :
  0 <= indexOf sentence (word first) 0 ->
  30 < indexOf sentence (word first) 0 + len (word first) ->
  exists c more rem,
    chunkSentence sentence (first :: rest) = Ok (c :: more, rem) /\
    start c = w_start first /\ end_ c = w_start first /\
    (text c = [] \/ more = []).
Proof.
  intros Hfound Hfar. unfold chunkSentence.
  destruct (loop_run sentence (first :: rest) (init_state first) 0)
    as (consumed & rem & Hw & Hl & Hf & Hs).
  rewrite Hl.
  destruct consumed as [|w consumed].
  { simpl in Hw. subst rem. simpl in Hs. lia. }
  injection Hw as <- Hw.
  set (st' := run sentence (init_state first) (first :: consumed)) in *.
  assert (Hch : exists more,
             chunks st' = {| text := []; start := w_start first;
                             end_ := w_start first |} :: more).
  { unfold st'. simpl run.
    destruct (run_chunks_prefix consumed
                (step sentence (init_state first)
                   (indexOf sentence (word first)
                      (chunkEndIndex (init_state first))) first))
      as [more Hm].
    exists more. simpl in Hm. rewrite Hm. unfold step. simpl.
    replace (indexOf sentence (word first) 0 + len (word first) - 0 >? 30)
      with true by (symmetry; apply Z.gtb_lt; lia).
    unfold new_chunk. simpl. now rewrite slice_same. }
  destruct Hch as [more Hch].
  unfold finish, append_to_last. rewrite Hch.
  destruct (short_span st').
  - destruct (rev ({| text := []; start := w_start first;
                      end_ := w_start first |} :: more))
      as [|last before] eqn:E.
    + apply (f_equal (@rev _)) in E. rewrite rev_involutive in E.
      discriminate E.
    + apply rev_eq_cons in E.
      destruct (rev before) as [|b bs] eqn:Eb; simpl in E.
      * injection E as <- _. do 3 eexists. split; [reflexivity|].
        simpl. auto.
      * injection E as <- _. do 3 eexists. split; [reflexivity|].
        simpl. auto.
  - do 3 eexists. split; [reflexivity|]. simpl. auto.
Qed.

End FirstWord.

Lemma first_word_too_far_witness :
  exists c more rem,
    chunkSentence (js "aaaaaaaaaaaaaaaaaaaaaaaaaaaaaaaa b")
      [ mkWord (js "aaaaaaaaaaaaaaaaaaaaaaaaaaaaaaaa") 0 1;
        mkWord (js "b") 1 2 ]
    = Ok (c :: more, rem) /\
    start c = 0%Q /\ end_ c = 0%Q /\ (text c = [] \/ more = []).
Proof.
  apply (first_word_too_far (js "aaaaaaaaaaaaaaaaaaaaaaaaaaaaaaaa b")
           (mkWord (js "aaaaaaaaaaaaaaaaaaaaaaaaaaaaaaaa") 0 1)
           [mkWord (js "b") 1 2]).
  - vm_compute. discriminate.
  - vm_compute. reflexivity.
Defined.

(** ** The letters of the chunks and of the text *)

Lemma letters_app (a b : str) : letters (a ++ b) = letters a ++ letters b.
Proof. apply filter_app. Qed.

Lemma letters_blank (s : str) : all_space s -> letters s = [].
Proof.
  induction 1 as [|c s Hc _ IH]; [reflexivity|].
  unfold letters in *. simpl. now rewrite Hc, IH.
Qed.

Lemma letters_separator (d : str) : is_separator d -> letters d = [].
Proof.
  intros (a & c & b & -> & Ha & Hc & Hb).
  rewrite letters_app, (letters_blank a Ha).
  unfold letters at 1. simpl. rewrite Hc, orb_true_r. simpl.
  now apply letters_blank.
Qed.

Lemma letters_joined_app (a b : list Chunk) :
  letters (joined_text (a ++ b))
  = letters (joined_text a) ++ letters (joined_text b).
Proof.
  unfold joined_text. now rewrite map_app, concat_app, letters_app.
Qed.

Lemma letters_joined_one (c : Chunk) :
  letters (joined_text [c]) = letters (text c).
Proof. unfold joined_text. simpl. now rewrite app_nil_r. Qed.

Lemma firstn_plus {A} (n m : nat) (l : list A) :
  firstn (n + m) l = firstn n l ++ firstn m (skipn n l).
Proof.
  revert l. induction n as [|n IH]; intros l; [reflexivity|].
  destruct l as [|x l]; simpl; [now rewrite firstn_nil | now rewrite IH].
Qed.

Lemma slice_nat (s : str) (a b : Z) :
  0 <= a <= b -> b <= len s ->
  slice s a b = firstn (Z.to_nat b - Z.to_nat a) (skipn (Z.to_nat a) s).
Proof.
  intros Ha Hb. unfold slice, rel_index.
  destruct (a <? 0) eqn:Ea; [apply Z.ltb_lt in Ea; lia|].
  destruct (b <? 0) eqn:Eb; [apply Z.ltb_lt in Eb; lia|].
  rewrite !Z.min_l by lia. f_equal. lia.
Qed.

Lemma slice_app (s : str) (a b c : Z) :
  0 <= a <= b -> b <= c -> c <= len s ->
  slice s a c = slice s a b ++ slice s b c.
Proof.
  intros Ha Hb Hc. rewrite !slice_nat by lia.
  replace (Z.to_nat c - Z.to_nat a)%nat
    with ((Z.to_nat b - Z.to_nat a) + (Z.to_nat c - Z.to_nat b))%nat by lia.
  rewrite firstn_plus, skipn_skipn. do 3 f_equal. lia.
Qed.

Lemma slice_all (s : str) : slice s 0 (len s) = s.
Proof. apply slice_from_0. Qed.

Section Cover.

Variable sentence : str.

Lemma cover_inv_init (first : Word) : cover_inv sentence (init_state first).
Proof.
  constructor; simpl; try lia; [apply len_nonneg|].
  now rewrite slice_same.
Qed.

Lemma cover_inv_step (st : LoopState) (w : Word) :
  cover_inv sentence st ->
  0 <= indexOf sentence (word w) (chunkEndIndex st) ->
  (if indexOf sentence (word w) (chunkEndIndex st) + len (word w)
      - chunkStartIndex st >? 30
   then all_space (slice sentence (chunkEndIndex st)
                     (indexOf sentence (word w) (chunkEndIndex st)))
   else True) ->
  cover_inv sentence
    (step sentence st (indexOf sentence (word w) (chunkEndIndex st)) w).
Proof.
  intros [Hs Ho He Hl] Hi Hgap.
  apply indexOf_found in Hi as Hf. destruct Hf as (Hc & Hb & _).
  unfold clamp in Hc. pose proof (len_nonneg (word w)) as Hw.
  assert (Hcur : chunkEndIndex st
                 <= indexOf sentence (word w) (chunkEndIndex st)) by lia.
  unfold step.
  destruct (indexOf sentence (word w) (chunkEndIndex st) + len (word w)
            - chunkStartIndex st >? 30); constructor; simpl; try lia.
  - rewrite slice_same, app_nil_r.
    rewrite letters_joined_app, letters_joined_one. simpl. rewrite Hl.
    rewrite (slice_app sentence 0 (chunkEndIndex st)
               (indexOf sentence (word w) (chunkEndIndex st))) by lia.
    now rewrite letters_app, (letters_blank _ Hgap), app_nil_r.
  - rewrite (slice_app sentence (chunkStartIndex st) (chunkEndIndex st)
               (indexOf sentence (word w) (chunkEndIndex st) + len (word w)))
      by lia.
    rewrite (slice_app sentence 0 (chunkEndIndex st)
               (indexOf sentence (word w) (chunkEndIndex st) + len (word w)))
      by lia.
    now rewrite !letters_app, app_assoc, Hl.
Qed.

Lemma cover_inv_run :
  forall consumed rest st,
    cover_inv sentence st ->
    all_found sentence st consumed ->
    stops sentence (run sentence st consumed) rest ->
    blank_gaps sentence st (consumed ++ rest) ->
    cover_inv sentence (run sentence st consumed).
Proof.
  induction consumed as [|w consumed IH]; intros rest st Hinv Hf Hs Hg;
    simpl in *; [exact Hinv|].
  destruct Hf as [Hi Hf].
  destruct (indexOf sentence (word w) (chunkEndIndex st) <? 0) eqn:E;
    [apply Z.ltb_lt in E; lia|].
  destruct Hg as [Hgap Hg].
  apply (IH rest); auto. now apply cover_inv_step.
Qed.

Lemma cover_inv_finish (st : LoopState) (cs : list Chunk) :
  cover_inv sentence st ->
  finish sentence st = Ok cs ->
  letters (joined_text cs) = letters sentence.
Proof.
  intros [Hs Ho He Hl]. unfold finish, append_to_last, slice_from.
  assert (Hall : letters (joined_text (chunks st)) ++
                 letters (slice sentence (chunkStartIndex st) (len sentence))
                 = letters sentence).
  { rewrite (slice_app sentence (chunkStartIndex st) (chunkEndIndex st)
               (len sentence)) by lia.
    rewrite letters_app, app_assoc, Hl, <- letters_app.
    rewrite <- (slice_app sentence 0 (chunkEndIndex st) (len sentence)) by lia.
    now rewrite slice_all. }
  destruct (short_span st).
  - destruct (rev (chunks st)) as [|last before] eqn:E; [discriminate|].
    apply rev_eq_cons in E. intros [= <-]. rewrite E in Hall.
    rewrite letters_joined_app, letters_joined_one in *. simpl.
    rewrite !letters_app, <- app_assoc in *. exact Hall.
  - intros [= <-]. rewrite letters_joined_app, letters_joined_one. exact Hall.
Qed.

Lemma chunkSentence_letters (words : list Word) (first : Word)
    (cs : list Chunk) (rem : list Word) :
  hd_error words = Some first ->
  chunkSentence sentence words = Ok (cs, rem) ->
  blank_gaps sentence (init_state first) words ->
  letters (joined_text cs) = letters sentence.
Proof.
  intros Hhd H Hg.
  apply chunkSentence_Ok in H as (f & consumed & Hhd' & Hw & Hf & Hs & Hfin).
  rewrite Hhd in Hhd'. injection Hhd' as <-. rewrite Hw in Hg.
  apply (cover_inv_finish _ _
           (cover_inv_run consumed rem _ (cover_inv_init first) Hf Hs Hg) Hfin).
Qed.

End Cover.

Lemma aligned_letters :
  forall ss ws groups final,
    aligned ss ws groups final ->
    blank_gaps_text ss ws ->
    letters (joined_text (List.concat groups)) = letters (List.concat ss).
Proof.
  induction 1 as [ws | s ss ws cs remaining groups final Hcs Hal IH];
    intros Hg; [reflexivity|].
  simpl in Hg. destruct Hg as [Hg1 Hg2]. rewrite Hcs in Hg2.
  simpl. rewrite letters_joined_app, letters_app, (IH Hg2). f_equal.
  destruct ws as [|first tl]; [discriminate Hcs|].
  eapply chunkSentence_letters; eauto. reflexivity.
Qed.

Lemma letters_rebuild :
  forall pieces seps,
    Forall is_separator seps ->
    letters (rebuild pieces seps) = letters (List.concat pieces).
Proof.
  induction pieces as [|p ps IH]; intros seps Hs; simpl.
  - destruct seps; reflexivity.
  - destruct seps as [|d ds]; [reflexivity|].
    inversion Hs; subst.
    rewrite !letters_app, (letters_separator d), IH by assumption.
    reflexivity.
Qed.

Lemma letters_sentences (txt : str) :
  letters (List.concat (sentences txt)) = letters txt.
Proof.
  destruct (split_loop_rebuild (S (List.length txt)) [] txt) as
    (seps & _ & Hsep & Hre); [lia|].
  simpl rev in Hre. simpl app in Hre. fold (split txt) in Hre.
  rewrite <- Hre at 2. rewrite letters_rebuild by assumption.
  clear Hre Hsep.
  unfold sentences. induction (split txt) as [|p ps IH]; [reflexivity|].
  simpl. destruct (str_eqb (trim p) []) eqn:E; simpl.
  - apply str_eqb_true, trim_nil in E.
    now rewrite letters_app, (letters_blank p E), IH.
  - now rewrite !letters_app, IH.
Qed.

(** C7, as stated, fails: the words, one after the other, are the
    narration text; the split removes the final dot, so the word
    "world." is not found in the sentence and is left over, and the only
    chunk is "Hello world": neither the narration text nor the text of
    the consumed words, white space apart. *)
Lemma chunkText_without_delimiter :
  dot_text <> [] /\
  starts_sorted dot_words /\
  spans_ok dot_words /\
  joined_words dot_words = dot_text /\
  chunkText dot_text dot_words
  = Ok ([mkChunk (js "Hello world") 0 0.5],
        [mkWord (js "world.") 0.5 0.9]) /\
  strip_space (joined_text [mkChunk (js "Hello world") 0 0.5])
  <> strip_space dot_text /\
  strip_space (joined_text [mkChunk (js "Hello world") 0 0.5])
  <> strip_space (joined_words [mkWord (js "Hello ") 0 0.5]).
Proof.
  split; [discriminate|].
  split; [repeat constructor; unfold Qle; simpl; lia|].
  split; [repeat constructor; unfold Qle; simpl; lia|].
  split; [reflexivity|].
  split; [vm_compute; reflexivity|].
  split; vm_compute; discriminate.
Qed.

(** C7, amended: when [chunkText] returns and, in every sentence, only
    white space lies between the end of a chunk closed by the limit of
    30 code units and the word that opens the next one, the texts of
    the chunks, one after the other, and the narration text hold the
    same code units in the same order, white space and the delimiters
    [.], [!], [?] apart. *)
Theorem chunkText_reproduces (txt : str) (words : list Word)
    (cues : list Chunk) (rem : list Word) :
  chunkText txt words = Ok (cues, rem) ->
  blank_gaps_text (sentences txt) words ->
  letters (joined_text cues) = letters txt.
Proof.
  intros H Hg. apply chunkText_aligned in H as (groups & Hal & ->).
  rewrite (aligned_letters _ _ _ _ Hal Hg). apply letters_sentences.
Qed.

Lemma chunkText_reproduces_witness :
  letters (joined_text [ mkChunk (js "I really do believe you know") 0 1.8;
                         mkChunk (js "that that is true") 1.8 3.1 ])
  = letters that_sentence.
Proof.
  apply (chunkText_reproduces that_sentence that_words _ []).
  - vm_compute. reflexivity.
  - vm_compute. repeat split. repeat constructor.
Defined.
